(** * A shallow embedding of the keploy RAG code indexer (package [rag])

    Sources embedded here:
    - [pkg/rag/indexer.go]: [generateID], [ProcessFile], [splitIntoChunks],
      [IndexDirectory], [isCodeFile], [Search];
    - the embedding client: [GenerateEmbeddings];
    - the vector store wrapper: [AddDocuments], [QuerySimilar].

    Go strings are byte sequences; they are modelled by [string], whose
    characters are the 256 values of [ascii].  Go's [int] is modelled by
    [Z]; lemma [chunker_sizes_bounded] shows that every integer the chunker
    computes lies between 0 and [len(text) + 1], so no 64-bit wrap-around can
    occur on a string that fits the address space. *)

From Stdlib Require Import ZArith Ascii DecimalString.
From stdpp Require Import base gmap list strings.

Local Open Scope Z_scope.

(** ** Byte strings *)

(** The one-byte string ["\n"]. *)
Definition newline_char : ascii := "010"%char.
Definition newline : string := String newline_char "".

(** [len(s)] *)
Definition len (s : string) : Z := Z.of_nat (String.length s).

(** [strings.Split(s, sep)] for a separator [sep] of exactly one byte: the
    pieces of [s] between consecutive occurrences of [sep], in order.  There is
    always one more piece than there are separators, so the result is never
    empty: [Split("", "\n")] is the one-element slice holding [""]. *)
Fixpoint strings_Split (s : string) (sep : ascii) : list string :=
  match s with
  | EmptyString => [ EmptyString ]
  | String c rest =>
      if decide (c = sep) then EmptyString :: strings_Split rest sep
      else match strings_Split rest sep with
           | piece :: pieces => String c piece :: pieces
           | [] => [ String c EmptyString ]
           end
  end.

(** ** The chunker: [splitIntoChunks] *)

(** The three variables the loop of [splitIntoChunks] mutates. *)
Record chunker : Type := Chunker {
  chunks : list string;        (* var chunks []string *)
  currentChunk : string;       (* the strings.Builder *)
  currentSize : Z              (* currentSize := 0 *)
}.

Definition chunker_init : chunker :=
  {| chunks := []; currentChunk := ""; currentSize := 0 |}.

(** One iteration of [for _, line := range lines]. *)
Definition chunker_step (chunkSize : Z) (st : chunker) (line : string) : chunker :=
  let lineSize := len line + 1 in
  let st' :=
    if (currentSize st + lineSize >? chunkSize) && (currentSize st >? 0)
    then {| chunks := chunks st ++ [currentChunk st];
            currentChunk := "";
            currentSize := 0 |}
    else st in
  {| chunks := chunks st';
     currentChunk := currentChunk st' +:+ (line +:+ newline);
     currentSize := currentSize st' + lineSize |}.

(** The code after the loop: flush the builder when it is not empty. *)
Definition chunker_finish (st : chunker) : list string :=
  if len (currentChunk st) >? 0 then chunks st ++ [currentChunk st]
  else chunks st.

Definition splitIntoChunks (text : string) (chunkSize : Z) : list string :=
  let lines := strings_Split text newline_char in
  chunker_finish (fold_left (chunker_step chunkSize) lines chunker_init).

(** The lines held by a chunk: a chunk is a run of newline-terminated lines,
    so its lines are the pieces before each newline (the piece after the last
    newline is not a line of the chunk). *)
Definition chunk_lines (chunk : string) : list string :=
  removelast (strings_Split chunk newline_char).

(** Accumulated size of a group of lines, as the loop counts it: each line's
    length plus one for its newline. *)
Fixpoint accumulated_size (lines : list string) : Z :=
  match lines with
  | [] => 0
  | line :: rest => (len line + 1) + accumulated_size rest
  end.

(** The text a group of lines contributes to the builder. *)
Fixpoint render (lines : list string) : string :=
  match lines with
  | [] => ""
  | line :: rest => line +:+ newline +:+ render rest
  end.

Definition no_newline (line : string) : Prop :=
  newline_char ∉ String.list_ascii_of_string line.

(** The loop seen on groups of lines instead of on rendered text: the closed
    groups and the group under construction.  [chunker_abs] maps such a pair to
    the state of the Go loop that holds its rendering; lemma
    [chunker_step_abs] shows that the loop follows [group_step]. *)
Definition grouping : Type := list (list string) * list string.

Definition group_step (chunkSize : Z) (g : grouping) (line : string) : grouping :=
  let '(closed, cur) := g in
  if (accumulated_size cur + (len line + 1) >? chunkSize) && (accumulated_size cur >? 0)
  then (closed ++ [cur], [line])
  else (closed, cur ++ [line]).

Definition group_finish (g : grouping) : list (list string) :=
  match g.2 with
  | [] => g.1
  | _ :: _ => g.1 ++ [g.2]
  end.

Definition group_lines (chunkSize : Z) (lines : list string) : list (list string) :=
  group_finish (fold_left (group_step chunkSize) lines ([], [])).

Definition chunker_abs (g : grouping) : chunker :=
  {| chunks := map render g.1;
     currentChunk := render g.2;
     currentSize := accumulated_size g.2 |}.

(** Loop invariant for the bound: the group under construction is empty, fits
    the target, or is a single line. *)
Definition current_ok (chunkSize : Z) (cur : list string) : Prop :=
  cur = [] ∨ accumulated_size cur <= chunkSize ∨ ∃ line, cur = [line].

(** What the loop guarantees of a closed group: it holds at least one line, and
    it fits the target unless it is a single line. *)
Definition group_ok (chunkSize : Z) (g : list string) : Prop :=
  g ≠ [] ∧ (accumulated_size g <= chunkSize ∨ ∃ line, g = [line]).

(** ** The file filter: [isCodeFile] *)

(** Value of a byte, for the comparisons the Go code makes on [s[i]]. *)
Definition byte_val (c : ascii) : Z := Z.of_N (N_of_ascii c).

(** [s[i:]] *)
Fixpoint string_from (i : nat) (s : string) : string :=
  match i, s with
  | O, _ => s
  | S j, String _ rest => string_from j rest
  | S _, EmptyString => EmptyString
  end.

(** [os.IsPathSeparator] on Unix: [PathSeparator == c] with ['/']. *)
Definition IsPathSeparator (c : ascii) : bool := bool_decide (c = "/"%char).

(** The loop of [filepath.Ext],
    [for i := len(path) - 1; i >= 0 && !os.IsPathSeparator(path[i]); i--],
    with [n = i + 1]; the result is [""] when the loop ends without
    returning. *)
Fixpoint Ext_loop (path : string) (n : nat) : string :=
  match n with
  | O => ""
  | S i =>
      match String.get i path with
      | None => ""
      | Some c =>
          if IsPathSeparator c then ""
          else if bool_decide (c = "."%char) then string_from i path
          else Ext_loop path i
      end
  end.

Definition filepath_Ext (path : string) : string :=
  Ext_loop path (String.length path).

(** [strings.ToLower] has a fast path for strings made of ASCII bytes only,
    embedded here as it is written.  Other strings go through
    [strings.Map(unicode.ToLower, s)], which needs the Unicode case tables of
    the Go runtime: that part is a parameter. *)
Class GoRuntime : Type := {
  Map_unicode_ToLower : string -> string
}.

Definition is_ascii_byte (c : ascii) : bool := byte_val c <? 128.  (* c < utf8.RuneSelf *)
Definition is_upper_byte (c : ascii) : bool := (65 <=? byte_val c) && (byte_val c <=? 90).

(** [c += 'a' - 'A'] on a byte *)
Definition lower_byte (c : ascii) : ascii :=
  if is_upper_byte c then ascii_of_N (N_of_ascii c + 32) else c.

Fixpoint map_bytes (f : ascii -> ascii) (s : string) : string :=
  match s with
  | EmptyString => EmptyString
  | String c rest => String (f c) (map_bytes f rest)
  end.

(** The first loop of [ToLower]: [(isASCII, hasUpper)]; it stops at the first
    byte that is not ASCII. *)
Fixpoint ToLower_scan (s : string) (hasUpper : bool) : bool * bool :=
  match s with
  | EmptyString => (true, hasUpper)
  | String c rest =>
      if is_ascii_byte c then ToLower_scan rest (hasUpper || is_upper_byte c)
      else (false, hasUpper)
  end.

Definition strings_ToLower {runtime : GoRuntime} (s : string) : string :=
  let '(isASCII, hasUpper) := ToLower_scan s false in
  if isASCII then
    if negb hasUpper then s else map_bytes lower_byte s
  else Map_unicode_ToLower s.

(** The map literal of [isCodeFile]. *)
Definition codeExtensions : gmap string bool :=
  list_to_map
    [ (".go", true); (".py", true); (".js", true); (".ts", true); (".java", true);
      (".cpp", true); (".c", true); (".h", true); (".hpp", true); (".rs", true) ].

(** Indexing a Go [map[string]bool] with a missing key gives [false]. *)
Definition isCodeFile {runtime : GoRuntime} (path : string) : bool :=
  let ext := strings_ToLower (filepath_Ext path) in
  default false (codeExtensions !! ext).

(** The allow-list of extensions, as the specification gives it. *)
Definition allowed_extensions : list string :=
  [ ".go"; ".py"; ".js"; ".ts"; ".java"; ".cpp"; ".c"; ".h"; ".hpp"; ".rs" ].

(** ** The content hasher: [generateID] *)

(** [crypto/sha256]: the SHA-256 function of FIPS 180-4 on byte sequences.
    32-bit words are kept in [Z] and reduced modulo [2^32] after every
    addition and left shift. *)
Module SHA256.

Definition w32 (x : Z) : Z := x mod 2 ^ 32.
Definition add32 (x y : Z) : Z := w32 (x + y).
Definition not32 (x : Z) : Z := Z.lxor x 0xffffffff.
Definition rotr (n x : Z) : Z :=
  Z.lor (Z.shiftr x n) (w32 (Z.shiftl x (32 - n))).

Definition Ch (x y z : Z) : Z := Z.lxor (Z.land x y) (Z.land (not32 x) z).
Definition Maj (x y z : Z) : Z :=
  Z.lxor (Z.lxor (Z.land x y) (Z.land x z)) (Z.land y z).
Definition Sigma0 (x : Z) : Z := Z.lxor (Z.lxor (rotr 2 x) (rotr 13 x)) (rotr 22 x).
Definition Sigma1 (x : Z) : Z := Z.lxor (Z.lxor (rotr 6 x) (rotr 11 x)) (rotr 25 x).
Definition sigma0 (x : Z) : Z := Z.lxor (Z.lxor (rotr 7 x) (rotr 18 x)) (Z.shiftr x 3).
Definition sigma1 (x : Z) : Z := Z.lxor (Z.lxor (rotr 17 x) (rotr 19 x)) (Z.shiftr x 10).

(** The round constants are the first 32 bits of the fractional parts of the
    cube roots of the first 64 primes, and the initial chaining value those of
    the square roots of the first 8 primes (FIPS 180-4, 4.2.2 and 5.3.3); the
    table [_K] of [crypto/sha256] lists the same numbers. *)
Definition is_prime (p : Z) : bool :=
  (2 <=? p)
  && forallb (fun d => negb (p mod d =? 0)) (map Z.of_nat (seq 2 (Z.to_nat p - 2))).

Definition first_primes : list Z :=
  Eval vm_compute in List.filter is_prime (map Z.of_nat (seq 2 310)).

Definition cube_root_step (n root : Z) (bit : nat) : Z :=
  let candidate := root + 2 ^ Z.of_nat bit in
  if candidate * candidate * candidate <=? n then candidate else root.

(** Integer cube root of a number below [2^120], bit by bit. *)
Definition cube_root (n : Z) : Z :=
  fold_left (cube_root_step n) (rev (seq 0 40)) 0.

Definition frac_cube_root (p : Z) : Z := w32 (cube_root (p * 2 ^ 96)).
Definition frac_sqrt (p : Z) : Z := w32 (Z.sqrt (p * 2 ^ 64)).

Definition K : list Z := Eval vm_compute in map frac_cube_root first_primes.

(** The eight working variables, also the chaining value. *)
Record regs : Type := Regs { ra : Z; rb : Z; rc : Z; rd : Z; re : Z; rf : Z; rg : Z; rh : Z }.

Definition init : regs :=
  Eval vm_compute in
    Regs (frac_sqrt 2) (frac_sqrt 3) (frac_sqrt 5) (frac_sqrt 7)
         (frac_sqrt 11) (frac_sqrt 13) (frac_sqrt 17) (frac_sqrt 19).

(** Big-endian words of a block of bytes. *)
Fixpoint be_words (bytes : list Z) : list Z :=
  match bytes with
  | b0 :: b1 :: b2 :: b3 :: rest =>
      (b0 * 2 ^ 24 + b1 * 2 ^ 16 + b2 * 2 ^ 8 + b3) :: be_words rest
  | _ => []
  end.

(** Message schedule, newest word first: [recent] holds [W(t-1), W(t-2), ...]. *)
Fixpoint extend (count : nat) (recent : list Z) : list Z :=
  match count with
  | O => recent
  | S count' =>
      let w := add32 (add32 (sigma1 (nth 1 recent 0)) (nth 6 recent 0))
                     (add32 (sigma0 (nth 14 recent 0)) (nth 15 recent 0)) in
      extend count' (w :: recent)
  end.

Definition schedule (block : list Z) : list Z :=
  rev (extend 48 (rev (be_words block))).

Definition round (r : regs) (kw : Z * Z) : regs :=
  let t1 := add32 (add32 (add32 (rh r) (Sigma1 (re r))) (Ch (re r) (rf r) (rg r)))
                  (add32 kw.1 kw.2) in
  let t2 := add32 (Sigma0 (ra r)) (Maj (ra r) (rb r) (rc r)) in
  Regs (add32 t1 t2) (ra r) (rb r) (rc r) (add32 (rd r) t1) (re r) (rf r) (rg r).

Definition compress (h : regs) (block : list Z) : regs :=
  let r := fold_left round (combine K (schedule block)) h in
  Regs (add32 (ra h) (ra r)) (add32 (rb h) (rb r)) (add32 (rc h) (rc r))
       (add32 (rd h) (rd r)) (add32 (re h) (re r)) (add32 (rf h) (rf r))
       (add32 (rg h) (rg r)) (add32 (rh h) (rh r)).

(** Padding: one [0x80] byte, zero bytes up to 56 modulo 64, then the length
    in bits as a 64-bit big-endian number. *)
Definition be_bytes (width : nat) (x : Z) : list Z :=
  map (fun i => Z.land (Z.shiftr x (8 * Z.of_nat i)) 255) (rev (seq 0 width)).

Definition pad (msg : list Z) : list Z :=
  let n := Z.of_nat (length msg) in
  msg ++ [128] ++ repeat 0 (Z.to_nat ((55 - n) mod 64))
      ++ be_bytes 8 ((8 * n) mod 2 ^ 64).

Fixpoint absorb (blocks : nat) (h : regs) (bytes : list Z) : regs :=
  match blocks with
  | O => h
  | S blocks' => absorb blocks' (compress h (firstn 64 bytes)) (skipn 64 bytes)
  end.

Definition digest_words (msg : list Z) : regs :=
  let padded := pad msg in
  absorb (length padded / 64)%nat init padded.

(** [hash.Write(data); hash.Sum(nil)] on a fresh [sha256.New()]: the 32
    bytes of the digest. *)
Definition Sum (data : list ascii) : list ascii :=
  let r := digest_words (map byte_val data) in
  map (fun b => ascii_of_N (Z.to_N b))
      (be_bytes 4 (ra r) ++ be_bytes 4 (rb r) ++ be_bytes 4 (rc r) ++ be_bytes 4 (rd r)
       ++ be_bytes 4 (re r) ++ be_bytes 4 (rf r) ++ be_bytes 4 (rg r) ++ be_bytes 4 (rh r)).

End SHA256.

(** [encoding/hex]: [hextable] and [EncodeToString], two characters per byte,
    [hextable[v>>4]] then [hextable[v&0x0f]]. *)
Definition hextable : string := "0123456789abcdef".

Definition hextable_at (i : Z) : ascii :=
  default "000"%char (String.get (Z.to_nat i) hextable).

Fixpoint hex_EncodeToString (src : list ascii) : string :=
  match src with
  | [] => ""
  | v :: rest =>
      String (hextable_at (Z.shiftr (byte_val v) 4))
        (String (hextable_at (Z.land (byte_val v) 15)) (hex_EncodeToString rest))
  end.

(** [[]byte(s)] *)
Definition bytes_of (s : string) : list ascii := String.list_ascii_of_string s.

Definition generateID (filePath content : string) : string :=
  hex_EncodeToString (SHA256.Sum (bytes_of (filePath +:+ content))).

(** Two different messages with the same SHA-256 digest. *)
Definition sha256_collision (m1 m2 : string) : Prop :=
  m1 ≠ m2 ∧ SHA256.Sum (bytes_of m1) = SHA256.Sum (bytes_of m2).

(** Inverse of [hextable_at] on the sixteen hexadecimal digits, and the
    decoding of a hexadecimal string; used to show that the encoding loses
    nothing. *)
Definition hex_digit_value (c : ascii) : Z :=
  let v := byte_val c in
  if (48 <=? v) && (v <=? 57) then v - 48
  else if (97 <=? v) && (v <=? 102) then v - 87
  else 0.

Fixpoint hex_decode (s : string) : list ascii :=
  match s with
  | String hi (String lo rest) =>
      ascii_of_N (Z.to_N (16 * hex_digit_value hi + hex_digit_value lo)) :: hex_decode rest
  | _ => []
  end.

(** ** Effects: the world outside the package *)

(** Outcome of a Go call that returns [(value, error)]: a value, an error (its
    message), or a run-time panic such as an index out of range. *)
Inductive result (A : Type) : Type :=
  | Ok (value : A)
  | Err (message : string)
  | Panic.
Arguments Ok {A} value.
Arguments Err {A} message.
Arguments Panic {A}.

(** A computation reads and changes the state [W] of everything outside the
    package (file system, embedding service, vector database).  The state is
    kept whatever the outcome: an error undoes nothing. *)
Definition M (W A : Type) : Type := W -> W * result A.

Definition ret {W A : Type} (a : A) : M W A := fun w => (w, Ok a).

Definition bind {W A B : Type} (c : M W A) (k : A -> M W B) : M W B :=
  fun w =>
    match c w with
    | (w', Ok a) => k a w'
    | (w', Err e) => (w', Err e)
    | (w', Panic) => (w', Panic)
    end.

Definition fail {W A : Type} (message : string) : M W A := fun w => (w, Err message).
Definition panic {W A : Type} : M W A := fun w => (w, Panic).

Notation "x <~ c ;; k" := (bind c (fun x => k))
  (at level 64, c at level 63, right associativity).
Notation "c ;;; k" := (bind c (fun _ => k))
  (at level 64, k at level 64, right associativity).

(** [if err != nil { return fmt.Errorf(prefix + "%v", err) }] *)
Definition wrap {W A : Type} (prefix : string) (c : M W A) : M W A :=
  fun w =>
    match c w with
    | (w', Err e) => (w', Err (prefix +:+ e))
    | other => other
    end.

(** [%d] *)
Definition format_int (n : Z) : string := NilZero.string_of_int (Z.to_int n).

(** A [float32] is only ever copied by this package; it is represented by its
    bit pattern. *)
Definition float32 : Type := Z.

(** The values stored under [interface{}] in the metadata of a chunk. *)
Inductive any : Type :=
  | AnyString (s : string)
  | AnyInt (n : Z).

(** [map[string]interface{}]; the nil map is the empty map. *)
Abbreviation Metadata := (gmap string any).

(** *** The embedding client *)

Record EmbeddingData : Type := {
  Embedding : list float32;
  Index : Z;
  Object : string
}.

Record EmbeddingResponse : Type := {
  Data : list EmbeddingData;
  Model : string;
  PromptTokens : Z;
  TotalTokens : Z
}.

(** A reply is aligned with a request when it carries one entry per input text
    and the entry at position [i] is the one numbered [i]. *)
Definition response_aligned (texts : list string) (r : EmbeddingResponse) : Prop :=
  length (Data r) = length texts
  ∧ ∀ i d, Data r !! i = Some d -> Index d = Z.of_nat i.

Record EmbeddingRequest : Type := {
  Input : list string;
  RequestModel : string
}.

Record EmbeddingGenerator : Type := {
  apiKey : string;
  model : string
}.

Definition NewEmbeddingGenerator (key : string) : EmbeddingGenerator :=
  {| apiKey := key; model := "text-embedding-ada-002" |}.

(** What [client.Do] hands back: the status code, and what decoding the body
    as JSON into an [EmbeddingResponse] gives (a decoding error or the
    value). *)
Record HttpResponse : Type := {
  StatusCode : Z;
  Body : string + EmbeddingResponse
}.

(** *** The vector database client *)

Record AddConfig : Type := {
  Ids : list string;
  Embeddings : list (list float32);
  Documents : list string;
  Metadatas : list Metadata
}.

Record QueryConfig : Type := {
  QueryEmbeddings : list float32;
  NResults : Z;
  Include : list string
}.

Record QueryResults : Type := {
  ResultDocuments : list string;
  ResultMetadatas : list Metadata
}.

(** One call of [filepath.WalkDir] to its callback: [fn(path, d, err)]. *)
Record WalkEntry : Type := {
  walk_path : string;
  walk_IsDir : bool;
  walk_err : option string
}.

(** The operations the package calls outside itself.  [http_post_embeddings]
    is the POST to the embeddings endpoint with the given key and body;
    [walk_entries] lists, in the walk's order, the calls [filepath.WalkDir]
    makes to its callback as long as the callback returns nil. *)
Class Services (W : Type) : Type := {
  os_ReadFile : string -> M W string;
  http_post_embeddings : string -> EmbeddingRequest -> M W HttpResponse;
  collection_Add : AddConfig -> M W ();
  collection_Query : QueryConfig -> M W QueryResults;
  collection_Delete : list string -> M W ();
  walk_entries : string -> W -> list WalkEntry
}.

Section Package.
Context {W : Type} {services : Services W} {runtime : GoRuntime}.

(** [GenerateEmbeddings].  [json.Marshal] of a request made of strings and
    [http.NewRequestWithContext] with a constant method and URL do not
    fail; their error branches are left out. *)
Definition GenerateEmbeddings (g : EmbeddingGenerator) (texts : list string)
  : M W (list (list float32)) :=
  if bool_decide (length texts = 0%nat)
  then fail "no texts provided for embedding generation"
  else
    let reqBody := {| Input := texts; RequestModel := model g |} in
    resp <~ wrap "failed to make request: " (http_post_embeddings (apiKey g) reqBody) ;;
    if bool_decide (StatusCode resp ≠ 200)
    then fail ("API request failed with status code: " +:+ format_int (StatusCode resp))
    else
      match Body resp with
      | inl e => fail ("failed to decode response: " +:+ e)
      | inr embeddingResp =>
          (* embeddings[i] = data.Embedding for i, data := range Data *)
          ret (map Embedding (Data embeddingResp))
      end.

(** The client and the collection of a [ChromaStore] live in the state [W]
    and are reached through [collection_Add], [collection_Query] and
    [collection_Delete]. *)
Record ChromaStore : Type := {
  collectionName : string;
  embedder : EmbeddingGenerator
}.

(** [AddDocuments]; the mutex is not modelled, calls do not overlap here. *)
Definition AddDocuments (s : ChromaStore) (documents : list string)
    (metadata : list Metadata) (ids : list string) : M W () :=
  embeddings <~ wrap "failed to generate embeddings: "
                  (GenerateEmbeddings (embedder s) documents) ;;
  wrap "failed to add documents to ChromaDB: "
    (collection_Add {| Ids := ids; Embeddings := embeddings;
                       Documents := documents; Metadatas := metadata |}).

(** [QuerySimilar]; [queryEmbeddings[0]] panics on an empty slice. *)
Definition QuerySimilar (s : ChromaStore) (query : string) (limit : Z)
  : M W (list string * list Metadata) :=
  queryEmbeddings <~ wrap "failed to generate query embedding: "
                       (GenerateEmbeddings (embedder s) [query]) ;;
  match queryEmbeddings !! 0%nat with
  | None => panic
  | Some first =>
      results <~ wrap "failed to query ChromaDB: "
                   (collection_Query {| QueryEmbeddings := first; NResults := limit;
                                        Include := ["documents"; "metadatas"] |}) ;;
      ret (ResultDocuments results, ResultMetadatas results)
  end.

Definition DeleteDocuments (s : ChromaStore) (ids : list string) : M W () :=
  wrap "failed to delete documents from ChromaDB: " (collection_Delete ids).

(** *** The indexer *)

Record CodeIndexer : Type := {
  store : ChromaStore;
  rootPath : string
}.

Definition NewCodeIndexer (s : ChromaStore) (root : string) : CodeIndexer :=
  {| store := s; rootPath := root |}.

(** [strings.TrimPrefix(s, ".")] *)
Definition TrimPrefix_dot (s : string) : string :=
  match s with
  | String c rest => if bool_decide (c = "."%char) then rest else s
  | EmptyString => s
  end.

Definition chunk_metadata (filePath : string) (idx total : nat) : Metadata :=
  <["file_path" := AnyString filePath]>
  (<["chunk_index" := AnyInt (Z.of_nat idx)]>
  (<["total_chunks" := AnyInt (Z.of_nat total)]>
  (<["language" := AnyString (TrimPrefix_dot (filepath_Ext filePath))]> ∅))).

(** The body of [for idx, chunk := range chunks] in [ProcessFile]. *)
Definition add_chunk (i : CodeIndexer) (filePath : string) (total idx : nat)
    (chunk : string) : M W () :=
  let metadata := chunk_metadata filePath idx total in
  let id := generateID filePath chunk in
  wrap "failed to add chunk to vector store: "
    (AddDocuments (store i) [chunk] [metadata] [id]).

Fixpoint add_chunks (i : CodeIndexer) (filePath : string) (total idx : nat)
    (remaining : list string) : M W () :=
  match remaining with
  | [] => ret ()
  | chunk :: rest =>
      add_chunk i filePath total idx chunk ;;;
      add_chunks i filePath total (S idx) rest
  end.

Definition ProcessFile (i : CodeIndexer) (filePath : string) : M W () :=
  content <~ wrap ("failed to read file " +:+ filePath +:+ ": ") (os_ReadFile filePath) ;;
  let chunks := splitIntoChunks content 1000 in
  add_chunks i filePath (length chunks) 0 chunks.

(** The callback [IndexDirectory] gives to [filepath.WalkDir]. *)
Definition index_entry (i : CodeIndexer) (entry : WalkEntry) : M W () :=
  match walk_err entry with
  | Some err => fail err
  | None =>
      if walk_IsDir entry || negb (isCodeFile (walk_path entry)) then ret ()
      else ProcessFile i (walk_path entry)
  end.

(** [filepath.WalkDir]: the callback is called on one entry after the other
    and the first error it returns ends the walk and is the result.  (The
    callback of this package never returns [SkipDir] or [SkipAll].) *)
Fixpoint WalkDir (entries : list WalkEntry) (fn : WalkEntry -> M W ()) : M W () :=
  match entries with
  | [] => ret ()
  | entry :: rest => fn entry ;;; WalkDir rest fn
  end.

Definition IndexDirectory (i : CodeIndexer) : M W () :=
  fun w => WalkDir (walk_entries (rootPath i) w) (index_entry i) w.

(** *** Search *)

Record SearchResult : Type := {
  Content : string;
  SearchMetadata : Metadata
}.

(** The zero value of [SearchResult], which [make] fills the slice with. *)
Definition zero_result : SearchResult := {| Content := ""; SearchMetadata := ∅ |}.

Definition pair_result (doc : string) (m : Metadata) : SearchResult :=
  {| Content := doc; SearchMetadata := m |}.

(** [for idx, doc := range docs { results[idx] = SearchResult{doc, metadata[idx]} }];
    [metadata[idx]] panics when [idx] is not below [len(metadata)]. *)
Fixpoint Search_loop (idx : nat) (docs : list string) (metadata : list Metadata)
    (results : list SearchResult) : result (list SearchResult) :=
  match docs with
  | [] => Ok results
  | doc :: rest =>
      match metadata !! idx with
      | None => Panic
      | Some m =>
          Search_loop (S idx) rest metadata
            (<[idx := pair_result doc m]> results)
      end
  end.

Definition Search (i : CodeIndexer) (query : string) (limit : Z)
  : M W (list SearchResult) :=
  found <~ wrap "failed to query vector store: " (QuerySimilar (store i) query limit) ;;
  let '(docs, metadata) := found in
  (* results := make([]SearchResult, len(docs)) *)
  let results := replicate (length docs) zero_result in
  fun w => (w, Search_loop 0 docs metadata results).

End Package.

(** ** A deterministic test double for the outside world

    Files are a finite map; the embeddings endpoint answers from a queue of
    prepared replies, one per request; the vector database is a list of stored
    documents with a capacity, beyond which writes fail. *)
Record StoredDoc : Type := {
  doc_id : string;
  doc_text : string;
  doc_metadata : Metadata;
  doc_embedding : list float32
}.

Record TestWorld : Type := {
  tw_files : gmap string string;
  tw_tree : list WalkEntry;
  tw_replies : list (result HttpResponse);
  tw_docs : list StoredDoc;
  tw_capacity : nat;
  tw_answer : QueryResults;
  tw_reads : list string
}.

Definition tw_ReadFile (path : string) : M TestWorld string :=
  fun w =>
    let w' := {| tw_files := tw_files w; tw_tree := tw_tree w; tw_replies := tw_replies w;
                 tw_docs := tw_docs w; tw_capacity := tw_capacity w;
                 tw_answer := tw_answer w; tw_reads := tw_reads w ++ [path] |} in
    match tw_files w !! path with
    | Some content => (w', Ok content)
    | None => (w', Err ("open " +:+ path +:+ ": no such file or directory"))
    end.

Definition tw_post (key : string) (req : EmbeddingRequest) : M TestWorld HttpResponse :=
  fun w =>
    match tw_replies w with
    | [] => (w, Err "connection refused")
    | reply :: later =>
        ({| tw_files := tw_files w; tw_tree := tw_tree w; tw_replies := later;
            tw_docs := tw_docs w; tw_capacity := tw_capacity w;
            tw_answer := tw_answer w; tw_reads := tw_reads w |}, reply)
    end.

(** The documents of an [AddConfig], one record per ID. *)
Fixpoint stored_docs (ids documents : list string) (metadatas : list Metadata)
    (embeddings : list (list float32)) : list StoredDoc :=
  match ids, documents with
  | id :: ids', text :: documents' =>
      {| doc_id := id; doc_text := text;
         doc_metadata := default ∅ (head metadatas);
         doc_embedding := default [] (head embeddings) |}
      :: stored_docs ids' documents' (tail metadatas) (tail embeddings)
  | _, _ => []
  end.

Definition tw_Add (cfg : AddConfig) : M TestWorld () :=
  fun w =>
    let new := stored_docs (Ids cfg) (Documents cfg) (Metadatas cfg) (Embeddings cfg) in
    if bool_decide (length (tw_docs w) + length new <= tw_capacity w)%nat
    then ({| tw_files := tw_files w; tw_tree := tw_tree w; tw_replies := tw_replies w;
             tw_docs := tw_docs w ++ new; tw_capacity := tw_capacity w;
             tw_answer := tw_answer w; tw_reads := tw_reads w |}, Ok ())
    else (w, Err "collection is full").

Definition tw_Query (cfg : QueryConfig) : M TestWorld QueryResults :=
  fun w => (w, Ok (tw_answer w)).

Definition tw_Delete (ids : list string) : M TestWorld () :=
  fun w =>
    ({| tw_files := tw_files w; tw_tree := tw_tree w; tw_replies := tw_replies w;
        tw_docs := filter (fun d => doc_id d ∉ ids) (tw_docs w);
        tw_capacity := tw_capacity w;
        tw_answer := tw_answer w; tw_reads := tw_reads w |}, Ok ()).

#[export] Instance test_services : Services TestWorld := {|
  os_ReadFile := tw_ReadFile;
  http_post_embeddings := tw_post;
  collection_Add := tw_Add;
  collection_Query := tw_Query;
  collection_Delete := tw_Delete;
  walk_entries := fun _ w => tw_tree w
|}.

(** For the test double, strings that are not ASCII are left as they are. *)
#[export] Instance test_runtime : GoRuntime := {| Map_unicode_ToLower := fun s => s |}.

Definition tw_persisted (w : TestWorld) (id : string) : Prop :=
  id ∈ map doc_id (tw_docs w).

(** A successful reply of the endpoint carrying the given embeddings, indexed
    in order from [first]. *)
Fixpoint reply_data (first : Z) (embeddings : list (list float32)) : list EmbeddingData :=
  match embeddings with
  | [] => []
  | e :: rest =>
      {| Embedding := e; Index := first; Object := "embedding" |}
      :: reply_data (first + 1) rest
  end.

Definition ok_reply (embeddings : list (list float32)) : result HttpResponse :=
  Ok {| StatusCode := 200;
        Body := inr {| Data := reply_data 0 embeddings;
                       Model := "text-embedding-ada-002";
                       PromptTokens := 1; TotalTokens := 1 |} |}.

Definition test_indexer : CodeIndexer :=
  NewCodeIndexer {| collectionName := "code-snippets";
                    embedder := NewEmbeddingGenerator "key" |} ".".

(** [n] copies of a byte. *)
Fixpoint string_repeat (c : ascii) (n : nat) : string :=
  match n with
  | O => ""
  | S n' => String c (string_repeat c n')
  end.

(** *** Sample inputs for the test double *)

(** A file of two lines, the first one 1000 bytes long. *)
Definition long_file : string :=
  string_repeat "a" 1000 +:+ newline +:+ "b".

Definition sample_tree : list WalkEntry :=
  [ {| walk_path := "."; walk_IsDir := true; walk_err := None |};
    {| walk_path := "main.go"; walk_IsDir := false; walk_err := None |};
    {| walk_path := "notes.txt"; walk_IsDir := false; walk_err := None |};
    {| walk_path := "util.go"; walk_IsDir := false; walk_err := None |} ].

(** The endpoint answers every request; the database has room for one
    document. *)
Definition full_store_world : TestWorld :=
  {| tw_files := {[ "main.go" := long_file; "util.go" := "c" ]};
     tw_tree := sample_tree;
     tw_replies := [ok_reply [[1]]; ok_reply [[2]]; ok_reply [[3]]];
     tw_docs := []; tw_capacity := 1;
     tw_answer := {| ResultDocuments := []; ResultMetadatas := [] |};
     tw_reads := [] |}.

Definition sample_metadata (path : string) : Metadata :=
  {[ "file_path" := AnyString path ]}.

(** The database answers a query with two documents and their metadata. *)
Definition query_world : TestWorld :=
  {| tw_files := ∅; tw_tree := [];
     tw_replies := [ok_reply [[5; 6]]];
     tw_docs := []; tw_capacity := 10;
     tw_answer := {| ResultDocuments := ["func a()"; "func b()"];
                     ResultMetadatas := [sample_metadata "a.go"; sample_metadata "b.go"] |};
     tw_reads := [] |}.

(** The database answers with two documents and one metadata entry. *)
Definition short_metadata_world : TestWorld :=
  {| tw_files := ∅; tw_tree := [];
     tw_replies := [ok_reply [[5; 6]]];
     tw_docs := []; tw_capacity := 10;
     tw_answer := {| ResultDocuments := ["func a()"; "func b()"];
                     ResultMetadatas := [sample_metadata "a.go"] |};
     tw_reads := [] |}.

(** The state a computation leaves, and its outcome. *)
Definition state_after {W A : Type} (c : M W A) (w : W) : W := (c w).1.
Definition outcome {W A : Type} (c : M W A) (w : W) : result A := (c w).2.

(** A world whose endpoint answers the next request with status 200 and a body
    without entries. *)
Definition empty_reply_world : TestWorld :=
  {| tw_files := ∅; tw_tree := []; tw_replies := [ok_reply []];
     tw_docs := []; tw_capacity := 10;
     tw_answer := {| ResultDocuments := []; ResultMetadatas := [] |};
     tw_reads := [] |}.

Definition long_chunk : string := string_repeat "a" 1000 +:+ newline.
Definition short_chunk : string := String "b" newline.

Definition sample_text : string := String "a" newline +:+ "longer".

(** ** Further definitions used to state properties of the package *)

(** The first line of the group [next] does not fit after the group [g]: the
    condition under which the loop of [splitIntoChunks] closes [g]. *)
Definition overflows (chunkSize : Z) (g next : list string) : Prop :=
  ∃ line rest, next = line :: rest ∧ chunkSize < accumulated_size g + (len line + 1).

(** Every group but the last is followed by a group whose first line did not
    fit. *)
Fixpoint greedy (chunkSize : Z) (gs : list (list string)) : Prop :=
  match gs with
  | g :: later =>
      match later with
      | next :: _ => overflows chunkSize g next ∧ greedy chunkSize later
      | [] => True
      end
  | [] => True
  end.

Fixpoint all_ascii (s : string) : bool :=
  match s with
  | EmptyString => true
  | String c rest => is_ascii_byte c && all_ascii rest
  end.

Fixpoint has_upper (s : string) : bool :=
  match s with
  | EmptyString => false
  | String c rest => is_upper_byte c || has_upper rest
  end.

Fixpoint has_byte (b : ascii) (s : string) : bool :=
  match s with
  | EmptyString => false
  | String c rest => bool_decide (c = b) || has_byte b rest
  end.

(** An extension made of a dot followed by ASCII bytes other than dots and
    separators. *)
Definition plain_extension (ext : string) : bool :=
  match ext with
  | String c rest =>
      bool_decide (c = "."%char) && negb (has_byte "." rest) && negb (has_byte "/" rest)
      && all_ascii rest
  | EmptyString => false
  end.

(** The entries of a walk that [IndexDirectory] hands to [ProcessFile], and
    the processing of a list of files one after the other, stopping at the
    first error. *)
Section Eligible.
Context {W : Type} {services : Services W} {runtime : GoRuntime}.

Definition eligible (entry : WalkEntry) : bool :=
  negb (walk_IsDir entry || negb (isCodeFile (walk_path entry))).

Definition eligible_paths (entries : list WalkEntry) : list string :=
  map walk_path (List.filter eligible entries).

Fixpoint process_files (i : CodeIndexer) (paths : list string) : M W () :=
  match paths with
  | [] => ret ()
  | path :: rest => ProcessFile i path ;;; process_files i rest
  end.

End Eligible.

(** *** Opening the store: [NewChromaStore] and [Close] *)

(** The calls of [NewChromaStore] and [Close] to the database client, and
    [filepath.Clean].  The client and the collection they return are part of
    the state. *)
Class ChromaClient (W : Type) : Type := {
  filepath_Clean : string -> string;
  chroma_NewClient : string -> M W ();
  client_CreateCollection : string -> Metadata -> M W ();
  client_GetCollection : string -> M W ();
  client_Close : M W ()
}.

Section Opening.
Context {W : Type} {client : ChromaClient W}.

Definition collection_description : Metadata :=
  {[ "description" := AnyString "Code snippets collection for RAG system" ]}.

(** [NewChromaStore]: when creating the collection fails, the collection is
    looked up instead, and only the error of the lookup is reported. *)
Definition NewChromaStore (persistDir name : string) (e : EmbeddingGenerator)
  : M W ChromaStore :=
  let dir := filepath_Clean persistDir in
  wrap "failed to create ChromaDB client: " (chroma_NewClient dir) ;;;
  fun w =>
    match client_CreateCollection name collection_description w with
    | (w1, Ok _) => (w1, Ok {| collectionName := name; embedder := e |})
    | (w1, Err _) =>
        (wrap "failed to create/get collection: " (client_GetCollection name) ;;;
         ret {| collectionName := name; embedder := e |}) w1
    | (w1, Panic) => (w1, Panic)
    end.

Definition Close (s : ChromaStore) : M W () := client_Close.

End Opening.

(** A database client for tests: the state is the list of the names of the
    collections that exist, or [None] when the database cannot be opened;
    creating an existing collection fails. *)
Definition names_NewClient (dir : string) : M (option (list string)) () :=
  fun w =>
    match w with
    | Some _ => (w, Ok ())
    | None => (w, Err "cannot open database")
    end.

Definition names_Create (name : string) (m : Metadata) : M (option (list string)) () :=
  fun w =>
    match w with
    | Some names =>
        if bool_decide (name ∈ names) then (w, Err "collection already exists")
        else (Some (name :: names), Ok ())
    | None => (w, Err "no client")
    end.

Definition names_Get (name : string) : M (option (list string)) () :=
  fun w =>
    match w with
    | Some names =>
        if bool_decide (name ∈ names) then (w, Ok ())
        else (w, Err "collection does not exist")
    | None => (w, Err "no client")
    end.

#[export] Instance names_client : ChromaClient (option (list string)) := {|
  filepath_Clean := fun dir => dir;
  chroma_NewClient := names_NewClient;
  client_CreateCollection := names_Create;
  client_GetCollection := names_Get;
  client_Close := ret ()
|}.

(** *** More sample states of the test double *)

Definition make_world (files : gmap string string) (tree : list WalkEntry)
    (replies : list (result HttpResponse)) (capacity : nat) (answer : QueryResults)
  : TestWorld :=
  {| tw_files := files; tw_tree := tree; tw_replies := replies;
     tw_docs := []; tw_capacity := capacity; tw_answer := answer; tw_reads := [] |}.

Definition no_answer : QueryResults :=
  {| ResultDocuments := []; ResultMetadatas := [] |}.

(** Room for every document, and the endpoint answers every request. *)
Definition roomy_world : TestWorld :=
  make_world {[ "main.go" := long_file; "util.go" := "c" ]} sample_tree
    [ok_reply [[1]]; ok_reply [[2]]; ok_reply [[3]]] 10 no_answer.

(** The endpoint cannot be reached. *)
Definition offline_world : TestWorld :=
  make_world {[ "empty.go" := "" ]} [] [] 10 no_answer.

(** The database answers with one document and two metadata entries. *)
Definition surplus_world : TestWorld :=
  make_world ∅ [] [ok_reply [[5; 6]; [7; 8]]] 10
    {| ResultDocuments := ["func a()"];
       ResultMetadatas := [sample_metadata "a.go"; sample_metadata "b.go"] |}.

(* ===================================================================== *)
(** * Properties *)
(* ===================================================================== *)

(** ** Byte strings *)

Lemma string_app_cons (x : ascii) (a b : string) :
  String x a +:+ b = String x (a +:+ b).
Proof. reflexivity. Qed.

Lemma string_app_nil_l (a : string) : "" +:+ a = a.
Proof. reflexivity. Qed.

Lemma string_app_assoc (a b c : string) : (a +:+ b) +:+ c = a +:+ (b +:+ c).
Proof.
  induction a as [|x a IH]; [done |].
  rewrite !string_app_cons. by f_equal.
Qed.

Lemma string_app_nil_r (a : string) : a +:+ "" = a.
Proof.
  induction a as [|x a IH]; [done |].
  rewrite string_app_cons. by f_equal.
Qed.

Lemma len_app (a b : string) : len (a +:+ b) = len a + len b.
Proof.
  unfold len. induction a as [|x a IH].
  - rewrite string_app_nil_l. simpl. lia.
  - rewrite string_app_cons. cbn [String.length]. lia.
Qed.

Lemma len_nonneg (a : string) : 0 <= len a.
Proof. unfold len. lia. Qed.

Lemma len_newline : len newline = 1.
Proof. reflexivity. Qed.

Lemma len_zero_inv (a : string) : len a = 0 -> a = "".
Proof. destruct a; [done | unfold len; simpl; lia]. Qed.

(** ** [strings.Split] on one-byte separators *)

Lemma Split_nonempty (s : string) (sep : ascii) : strings_Split s sep ≠ [].
Proof.
  destruct s as [|c rest]; cbn; [done |].
  case_decide; [done |]. by destruct (strings_Split rest sep).
Qed.

Lemma Split_no_sep (s : string) (sep : ascii) :
  Forall (fun piece => sep ∉ String.list_ascii_of_string piece) (strings_Split s sep).
Proof.
  induction s as [|c rest IH]; cbn.
  - repeat constructor. cbn. apply not_elem_of_nil.
  - case_decide as Hc.
    + constructor; [cbn; apply not_elem_of_nil | done].
    + destruct (strings_Split rest sep) as [|piece pieces].
      * repeat constructor. cbn. rewrite elem_of_cons. intros [->|H]; [done|].
        by apply not_elem_of_nil in H.
      * inversion IH as [|? ? Hp Hps]; subst. constructor; [|done].
        cbn. rewrite elem_of_cons. intros [->|H]; [done | by apply Hp].
Qed.

Lemma Split_lines_no_newline (text : string) :
  Forall no_newline (strings_Split text newline_char).
Proof. apply Split_no_sep. Qed.

(** Putting a newline after every piece gives the text back, followed by one
    more newline. *)
Lemma render_Split (text : string) :
  render (strings_Split text newline_char) = text +:+ newline.
Proof.
  induction text as [|c rest IH]; cbn [strings_Split].
  - reflexivity.
  - case_decide as Hc.
    + subst c. cbn [render]. rewrite IH. reflexivity.
    + pose proof (Split_nonempty rest newline_char) as Hne.
      destruct (strings_Split rest newline_char) as [|piece pieces]; [done |].
      cbn [render] in *. rewrite !string_app_cons. by rewrite IH.
Qed.

Lemma Split_line_then (line rest : string) :
  no_newline line ->
  strings_Split (line +:+ newline +:+ rest) newline_char
  = line :: strings_Split rest newline_char.
Proof.
  unfold no_newline. induction line as [|c line IH]; intros Hno.
  - reflexivity.
  - rewrite string_app_cons. cbn [strings_Split].
    cbn in Hno. rewrite not_elem_of_cons in Hno. destruct Hno as [Hc Hno].
    case_decide as Hd; [by subst |]. by rewrite IH.
Qed.

Lemma Split_render (g : list string) :
  Forall no_newline g -> strings_Split (render g) newline_char = g ++ [""].
Proof.
  induction 1 as [|line g Hline Hg IH]; [done |].
  cbn [render].
  rewrite Split_line_then by done. by rewrite IH.
Qed.

Lemma chunk_lines_render (g : list string) :
  Forall no_newline g -> chunk_lines (render g) = g.
Proof.
  intros Hg. unfold chunk_lines. rewrite Split_render by done.
  apply removelast_last.
Qed.

(** ** Rendering and sizes of groups *)

Lemma render_app (g1 g2 : list string) : render (g1 ++ g2) = render g1 +:+ render g2.
Proof.
  induction g1 as [|line g1 IH]; [done |].
  cbn [app render].
  by rewrite IH, !string_app_assoc.
Qed.

Lemma render_single (line : string) : render [line] = line +:+ newline.
Proof. cbn. by rewrite string_app_nil_r. Qed.

Lemma render_concat (gs : list (list string)) :
  render (concat gs) = fold_right String.append "" (map render gs).
Proof.
  induction gs as [|g gs IH]; [done |]. cbn [concat map fold_right].
  by rewrite render_app, IH.
Qed.

Lemma accumulated_size_app (g1 g2 : list string) :
  accumulated_size (g1 ++ g2) = accumulated_size g1 + accumulated_size g2.
Proof.
  induction g1 as [|line g1 IH]; cbn [app accumulated_size]; [lia |]. lia.
Qed.

Lemma accumulated_size_single (line : string) : accumulated_size [line] = len line + 1.
Proof. cbn. lia. Qed.

Lemma accumulated_size_nonneg (g : list string) : 0 <= accumulated_size g.
Proof.
  induction g as [|line g IH]; cbn [accumulated_size]; [lia |]. pose proof (len_nonneg line). lia.
Qed.

Lemma accumulated_size_pos (g : list string) : g ≠ [] -> 0 < accumulated_size g.
Proof.
  destruct g as [|line g]; [done |]. intros _.
  cbn [accumulated_size].
  pose proof (len_nonneg line). pose proof (accumulated_size_nonneg g). lia.
Qed.

(** The size the loop tracks is the length of the text it has built. *)
Lemma len_render (g : list string) : len (render g) = accumulated_size g.
Proof.
  induction g as [|line g IH]; [done |].
  cbn [render accumulated_size].
  rewrite !len_app, len_newline, IH. lia.
Qed.

(** ** The loop of [splitIntoChunks] follows the grouping of lines *)

Lemma chunker_step_abs (chunkSize : Z) (g : grouping) (line : string) :
  chunker_step chunkSize (chunker_abs g) line
  = chunker_abs (group_step chunkSize g line).
Proof.
  destruct g as [closed cur]. unfold chunker_step, group_step, chunker_abs.
  cbn [fst snd chunks currentChunk currentSize].
  destruct ((accumulated_size cur + (len line + 1) >? chunkSize)
            && (accumulated_size cur >? 0)); cbn [fst snd chunks currentChunk currentSize].
  - rewrite map_app, render_single, accumulated_size_single. reflexivity.
  - rewrite render_app, accumulated_size_app, render_single, accumulated_size_single.
    reflexivity.
Qed.

Lemma chunker_loop_abs (chunkSize : Z) (lines : list string) (g : grouping) :
  fold_left (chunker_step chunkSize) lines (chunker_abs g)
  = chunker_abs (fold_left (group_step chunkSize) lines g).
Proof.
  revert g. induction lines as [|line lines IH]; intros g; [done |].
  cbn [fold_left]. by rewrite chunker_step_abs, IH.
Qed.

Lemma chunker_finish_abs (g : grouping) :
  chunker_finish (chunker_abs g) = map render (group_finish g).
Proof.
  destruct g as [closed cur]. unfold chunker_finish, group_finish, chunker_abs.
  cbn [fst snd chunks currentChunk]. rewrite len_render.
  destruct cur as [|line cur].
  - reflexivity.
  - pose proof (accumulated_size_pos (line :: cur)) as Hpos.
    destruct (Z.gtb_spec (accumulated_size (line :: cur)) 0) as [_|Hle].
    + by rewrite map_app.
    + exfalso. assert (0 < accumulated_size (line :: cur)) by by apply Hpos. lia.
Qed.

(** The chunks are the renderings of the groups of lines. *)
Lemma splitIntoChunks_groups (text : string) (chunkSize : Z) :
  splitIntoChunks text chunkSize
  = map render (group_lines chunkSize (strings_Split text newline_char)).
Proof.
  unfold splitIntoChunks, group_lines.
  change chunker_init with (chunker_abs ([], [])).
  by rewrite chunker_loop_abs, chunker_finish_abs.
Qed.

(** ** Properties of the grouping *)

Lemma group_loop_concat (chunkSize : Z) (lines : list string) (g : grouping) :
  concat (group_finish (fold_left (group_step chunkSize) lines g))
  = concat g.1 ++ g.2 ++ lines.
Proof.
  revert g. induction lines as [|line lines IH]; intros [closed cur].
  - cbn [fold_left fst snd]. unfold group_finish. cbn [fst snd].
    destruct cur as [|l cur]; [by rewrite !app_nil_r |].
    by rewrite concat_app, app_nil_r; cbn [concat]; rewrite !app_nil_r.
  - cbn [fold_left]. rewrite IH. unfold group_step.
    destruct ((accumulated_size cur + (len line + 1) >? chunkSize)
              && (accumulated_size cur >? 0)); cbn [fst snd].
    + rewrite concat_app. cbn [concat]. rewrite app_nil_r, <- !app_assoc. reflexivity.
    + rewrite <- !app_assoc. reflexivity.
Qed.

Lemma group_lines_concat (chunkSize : Z) (lines : list string) :
  concat (group_lines chunkSize lines) = lines.
Proof. unfold group_lines. by rewrite group_loop_concat. Qed.

Lemma group_loop_ok (chunkSize : Z) (lines : list string) (g : grouping) :
  Forall (group_ok chunkSize) g.1 -> current_ok chunkSize g.2 ->
  Forall (group_ok chunkSize) (group_finish (fold_left (group_step chunkSize) lines g)).
Proof.
  revert g. induction lines as [|line lines IH]; intros [closed cur] Hclosed Hcur;
    cbn [fst snd] in *.
  - cbn [fold_left]. unfold group_finish. cbn [fst snd].
    destruct cur as [|l cur]; [done |].
    apply Forall_app. split; [done |]. constructor; [|constructor].
    split; [done |]. destruct Hcur as [?|[?|?]]; [done | by left | by right].
  - cbn [fold_left]. apply IH; unfold group_step;
      destruct (Z.gtb_spec (accumulated_size cur + (len line + 1)) chunkSize) as [Hgt|Hle];
      destruct (Z.gtb_spec (accumulated_size cur) 0) as [Hpos|Hzero];
      cbn [andb fst snd]; try done.
    + apply Forall_app. split; [done |]. constructor; [|constructor].
      assert (cur ≠ []) as Hne by (intros ->; cbn in Hpos; lia).
      split; [done |]. destruct Hcur as [?|[?|?]]; [done | by left | by right].
    + right. right. by exists line.
    + assert (cur = []) as ->.
      { destruct cur as [|l cur]; [done |].
        pose proof (accumulated_size_pos (l :: cur)) as Hp.
        assert (0 < accumulated_size (l :: cur)) by by apply Hp. lia. }
      right. right. by exists line.
    + right. left. rewrite accumulated_size_app, accumulated_size_single. lia.
    + right. left. rewrite accumulated_size_app, accumulated_size_single. lia.
Qed.

Lemma group_lines_ok (chunkSize : Z) (lines : list string) :
  Forall (group_ok chunkSize) (group_lines chunkSize lines).
Proof. apply group_loop_ok; cbn; [constructor | by left]. Qed.

Lemma group_lines_no_newline (chunkSize : Z) (lines : list string) :
  Forall no_newline lines ->
  Forall (Forall no_newline) (group_lines chunkSize lines).
Proof.
  intros Hlines. rewrite <- (group_lines_concat chunkSize lines) in Hlines.
  induction (group_lines chunkSize lines) as [|g gs IH]; [constructor |].
  cbn [concat] in Hlines. apply Forall_app in Hlines as [Hg Hgs].
  constructor; [done | by apply IH].
Qed.

Lemma elem_of_concat_inv {A : Type} (x : A) (ls : list (list A)) :
  x ∈ concat ls -> ∃ l, l ∈ ls ∧ x ∈ l.
Proof.
  induction ls as [|l ls IH]; cbn [concat].
  - intros H. by apply not_elem_of_nil in H.
  - rewrite elem_of_app. intros [Hl | Hls].
    + exists l. split; [apply list_elem_of_here | done].
    + destruct (IH Hls) as (l' & Hl' & Hx). exists l'.
      split; [by apply list_elem_of_further | done].
Qed.

Lemma elem_of_concat_intro {A : Type} (x : A) (l : list A) (ls : list (list A)) :
  l ∈ ls -> x ∈ l -> x ∈ concat ls.
Proof.
  induction 1 as [l ls|l other ls Hin IH]; intros Hx; cbn [concat];
    rewrite elem_of_app; [by left | right; by apply IH].
Qed.

Lemma line_size_le_group (line : string) (g : list string) :
  line ∈ g -> len line + 1 <= accumulated_size g.
Proof.
  induction 1 as [line g|line other g Hin IH]; cbn [accumulated_size].
  - pose proof (accumulated_size_nonneg g). lia.
  - pose proof (len_nonneg other). lia.
Qed.

Lemma render_ends_with_newline (g : list string) :
  g ≠ [] -> ∃ body, render g = body +:+ newline.
Proof.
  intros Hne. destruct (exists_last Hne) as (front & line & ->).
  exists (render front +:+ line).
  by rewrite render_app, render_single, string_app_assoc.
Qed.

Lemma render_nonempty (g : list string) : g ≠ [] -> render g ≠ "".
Proof.
  intros Hne Heq. apply accumulated_size_pos in Hne.
  rewrite <- len_render, Heq in Hne. change (len "") with 0 in Hne. lia.
Qed.

(** Every chunk is the rendering of a group of lines of the text, and that
    group is what [chunk_lines] reads back from the chunk. *)
Lemma chunk_is_group (text : string) (chunkSize : Z) (chunk : string) :
  chunk ∈ splitIntoChunks text chunkSize ->
  chunk = render (chunk_lines chunk)
  ∧ chunk_lines chunk ∈ group_lines chunkSize (strings_Split text newline_char).
Proof.
  rewrite splitIntoChunks_groups. intros Hin.
  apply list_elem_of_fmap in Hin as (g & -> & Hg).
  pose proof (group_lines_no_newline chunkSize _ (Split_lines_no_newline text)) as Hno.
  rewrite Forall_forall in Hno.
  rewrite chunk_lines_render by by apply Hno. done.
Qed.

Example split_abc :
  strings_Split (String "a" (String newline_char (String "b" (String "c" newline))))
    newline_char = ["a"; "bc"; ""].
Proof. reflexivity. Qed.

Example chunks_small :
  splitIntoChunks (String "a" (String newline_char (String "b" (String "c" newline)))) 3
  = [ String "a" newline; String "b" (String "c" newline); newline ].
Proof. vm_compute. reflexivity. Qed.

(** ** Claims about the chunker *)

(** C1 (chunk coverage): for every input text and every target size, the lines
    of the chunks of [splitIntoChunks], taken chunk after chunk, are exactly
    the lines of the text: nothing lost, nothing repeated, nothing moved. *)
Theorem chunk_coverage (text : string) (chunkSize : Z) :
  concat (map chunk_lines (splitIntoChunks text chunkSize))
  = strings_Split text newline_char.
Proof.
  rewrite splitIntoChunks_groups.
  pose proof (group_lines_no_newline chunkSize _ (Split_lines_no_newline text)) as Hno.
  rewrite <- (group_lines_concat chunkSize (strings_Split text newline_char)) at 2.
  induction Hno as [|g gs Hg Hgs IH]; [done |].
  cbn [map concat]. by rewrite chunk_lines_render, IH.
Qed.

(** C9 (chunker normalization): every chunk is non-empty and ends with a
    newline, and the chunks put together are the input text followed by exactly
    one more newline. *)
Theorem chunker_normalization (text : string) (chunkSize : Z) :
  Forall (fun chunk => chunk ≠ "" ∧ ∃ body, chunk = body +:+ newline)
         (splitIntoChunks text chunkSize)
  ∧ fold_right String.append "" (splitIntoChunks text chunkSize) = text +:+ newline.
Proof.
  rewrite splitIntoChunks_groups. split.
  - apply Forall_fmap. eapply Forall_impl; [apply group_lines_ok |].
    intros g [Hne _]. cbn. split;
      [by apply render_nonempty | by apply render_ends_with_newline].
  - by rewrite <- render_concat, group_lines_concat, render_Split.
Qed.

(** C4 (soft size bound): with a positive target, every chunk is made of whole
    lines of the text; its accumulated size is at most the target unless it
    consists of a single line, and in every case it exceeds the target by no more than the
    length of one of its lines.  A line longer than the target becomes a chunk
    of its own, unsplit. *)
Theorem chunk_size_soft_bound (text : string) (chunkSize : Z) :
  0 < chunkSize ->
  (∀ chunk, chunk ∈ splitIntoChunks text chunkSize ->
     chunk = render (chunk_lines chunk)
     ∧ (∀ line, line ∈ chunk_lines chunk -> line ∈ strings_Split text newline_char)
     ∧ len chunk = accumulated_size (chunk_lines chunk)
     ∧ (accumulated_size (chunk_lines chunk) <= chunkSize
        ∨ ∃ line, chunk_lines chunk = [line])
     ∧ ∃ line, line ∈ chunk_lines chunk
               ∧ accumulated_size (chunk_lines chunk) <= chunkSize + len line)
  ∧ (∀ line, line ∈ strings_Split text newline_char -> chunkSize < len line ->
       (line +:+ newline) ∈ splitIntoChunks text chunkSize).
Proof.
  intros Hpos. split.
  - intros chunk Hin. destruct (chunk_is_group _ _ _ Hin) as [Hrender Hgroup].
    pose proof (group_lines_ok chunkSize (strings_Split text newline_char)) as Hok.
    rewrite Forall_forall in Hok. destruct (Hok _ Hgroup) as [Hne Hfit].
    split; [done |]. split.
    { intros line Hline.
      rewrite <- (group_lines_concat chunkSize (strings_Split text newline_char)).
      by eapply elem_of_concat_intro. }
    split; [by rewrite Hrender at 1; apply len_render |].
    split; [done |].
    destruct Hfit as [Hle | [line Hone]].
    + destruct (chunk_lines chunk) as [|line rest]; [done |].
      exists line. split; [apply list_elem_of_here |]. pose proof (len_nonneg line). lia.
    + exists line. rewrite Hone. split; [apply list_elem_of_here |].
      rewrite accumulated_size_single. lia.
  - intros line Hline Hlong. rewrite splitIntoChunks_groups.
    rewrite <- (group_lines_concat chunkSize (strings_Split text newline_char)) in Hline.
    apply elem_of_concat_inv in Hline as (g & Hg & Hin).
    pose proof (group_lines_ok chunkSize (strings_Split text newline_char)) as Hok.
    rewrite Forall_forall in Hok. destruct (Hok _ Hg) as [_ [Hle | [only ->]]].
    + pose proof (line_size_le_group _ _ Hin). lia.
    + apply list_elem_of_singleton in Hin as ->.
      rewrite <- render_single. by apply list_elem_of_fmap_2.
Qed.

(** C2, evaluated: on the empty text [strings.Split] gives one empty line, the
    loop writes its newline into the builder, and the final flush emits it:
    the result is one chunk holding a single newline, not zero chunks. *)
Theorem splitIntoChunks_empty_text (chunkSize : Z) :
  splitIntoChunks "" chunkSize = [newline].
Proof.
  unfold splitIntoChunks. cbn [strings_Split fold_left].
  unfold chunker_step, chunker_init. cbn [currentSize currentChunk chunks].
  rewrite andb_false_r. reflexivity.
Qed.

Lemma chunk_size_soft_bound_witness :
  0 < 3
  ∧ (∀ chunk, chunk ∈ splitIntoChunks sample_text 3 ->
       accumulated_size (chunk_lines chunk) <= 3 ∨ ∃ line, chunk_lines chunk = [line])
  ∧ ("longer" +:+ newline) ∈ splitIntoChunks sample_text 3.
Proof.
  assert (0 < 3) as Hpos by lia.
  destruct (chunk_size_soft_bound sample_text 3 Hpos) as [Hall Hlong].
  split; [exact Hpos |]. split.
  - intros chunk Hin. destruct (Hall chunk Hin) as (_ & _ & _ & Hfit & _). exact Hfit.
  - apply Hlong; [| reflexivity].
    apply (bool_decide_unpack _). vm_compute. exact I.
Defined.

(** *** No integer of the chunker leaves the range of [int] *)

Lemma group_loop_open (chunkSize : Z) (lines : list string) (g : grouping) :
  let g' := fold_left (group_step chunkSize) lines g in
  concat g'.1 ++ g'.2 = concat g.1 ++ g.2 ++ lines.
Proof.
  revert g. induction lines as [|line lines IH]; intros [closed cur]; cbn zeta.
  - cbn [fold_left fst snd]. by rewrite app_nil_r.
  - cbn [fold_left]. cbn zeta in IH. rewrite IH. unfold group_step.
    destruct ((accumulated_size cur + (len line + 1) >? chunkSize)
              && (accumulated_size cur >? 0)); cbn [fst snd].
    + rewrite concat_app. cbn [concat]. rewrite app_nil_r, <- !app_assoc. reflexivity.
    + rewrite <- !app_assoc. reflexivity.
Qed.

(** When the loop reaches [line], [currentSize] and [currentSize + lineSize]
    lie between 0 and [len(text) + 1]. *)
Lemma chunker_sizes_bounded (text : string) (chunkSize : Z)
    (before : list string) (line : string) (after : list string) :
  strings_Split text newline_char = before ++ line :: after ->
  let st := fold_left (chunker_step chunkSize) before chunker_init in
  0 <= currentSize st ∧ currentSize st + (len line + 1) <= len text + 1.
Proof.
  intros Hsplit st. subst st.
  change chunker_init with (chunker_abs ([], [])). rewrite chunker_loop_abs.
  pose proof (group_loop_open chunkSize before ([], [])) as Hopen.
  cbn zeta in Hopen. cbn [fst snd concat app] in Hopen.
  destruct (fold_left (group_step chunkSize) before ([], [])) as [closed cur].
  cbn [fst snd] in Hopen. cbn [chunker_abs currentSize snd].
  assert (accumulated_size (strings_Split text newline_char) = len text + 1) as Htotal.
  { by rewrite <- len_render, render_Split, len_app, len_newline. }
  rewrite Hsplit, <- Hopen, !accumulated_size_app in Htotal.
  cbn [accumulated_size] in Htotal.
  pose proof (accumulated_size_nonneg (concat closed)).
  pose proof (accumulated_size_nonneg cur).
  pose proof (accumulated_size_nonneg after). lia.
Qed.

(** ** [filepath.Ext] *)

Lemma string_length_app (a b : string) :
  String.length (a +:+ b) = (String.length a + String.length b)%nat.
Proof.
  induction a as [|x a IH]; [done |].
  rewrite string_app_cons. cbn [String.length]. by rewrite IH.
Qed.

Lemma get_app_r (a b : string) (i : nat) :
  String.get (String.length a + i) (a +:+ b) = String.get i b.
Proof.
  induction a as [|x a IH]; [done |].
  rewrite string_app_cons. exact IH.
Qed.

Lemma string_from_app (a b : string) : string_from (String.length a) (a +:+ b) = b.
Proof.
  induction a as [|x a IH]; [by destruct b |].
  rewrite string_app_cons. exact IH.
Qed.

Lemma get_in_range (s : string) (i : nat) :
  (i < String.length s)%nat ->
  ∃ c, String.get i s = Some c ∧ c ∈ String.list_ascii_of_string s.
Proof.
  revert i. induction s as [|x s IH]; intros i Hi; cbn [String.length] in Hi; [lia |].
  destruct i as [|i]; cbn [String.get String.list_ascii_of_string].
  - exists x. split; [done | apply list_elem_of_here].
  - destruct (IH i) as (c & Hget & Hin); [lia |].
    exists c. split; [done | by apply list_elem_of_further].
Qed.

(** The scan runs over bytes that are neither a dot nor a separator. *)
Lemma Ext_loop_skip (front back : string) (k : nat) :
  "."%char ∉ String.list_ascii_of_string back ->
  "/"%char ∉ String.list_ascii_of_string back ->
  (k <= String.length back)%nat ->
  Ext_loop (front +:+ back) (String.length front + k)
  = Ext_loop (front +:+ back) (String.length front).
Proof.
  intros Hdot Hsep. induction k as [|k IH]; intros Hk; [by rewrite Nat.add_0_r |].
  replace (String.length front + S k)%nat with (S (String.length front + k)) by lia.
  cbn [Ext_loop]. rewrite get_app_r.
  destruct (get_in_range back k) as (c & -> & Hin); [lia |].
  unfold IsPathSeparator.
  rewrite bool_decide_eq_false_2 by (intros ->; by apply Hsep).
  rewrite bool_decide_eq_false_2 by (intros ->; by apply Hdot).
  apply IH. lia.
Qed.

(** The extension is the part of the path from its last dot, when no
    separator follows that dot. *)
Lemma filepath_Ext_dot (stem suffix : string) :
  "."%char ∉ String.list_ascii_of_string suffix ->
  "/"%char ∉ String.list_ascii_of_string suffix ->
  filepath_Ext (stem +:+ String "." suffix) = String "." suffix.
Proof.
  intros Hdot Hsep. unfold filepath_Ext.
  replace (stem +:+ String "." suffix) with ((stem +:+ ".") +:+ suffix)
    by (by rewrite string_app_assoc).
  rewrite (string_length_app (stem +:+ ".") suffix).
  rewrite Ext_loop_skip by done.
  rewrite string_length_app. cbn [String.length].
  replace (String.length stem + 1)%nat with (S (String.length stem)) by lia.
  cbn [Ext_loop]. rewrite string_app_assoc.
  pose proof (get_app_r stem (String "." suffix) 0) as Hget.
  rewrite Nat.add_0_r in Hget. change ("." +:+ suffix) with (String "." suffix).
  rewrite Hget. cbn [String.get]. unfold IsPathSeparator.
  rewrite bool_decide_eq_false_2 by discriminate.
  rewrite bool_decide_eq_true_2 by done.
  apply string_from_app.
Qed.

(** A last path element without a dot has no extension. *)
Lemma filepath_Ext_no_dot (dir name : string) :
  "."%char ∉ String.list_ascii_of_string name ->
  "/"%char ∉ String.list_ascii_of_string name ->
  filepath_Ext name = ""
  ∧ filepath_Ext (dir +:+ String "/" name) = "".
Proof.
  intros Hdot Hsep. unfold filepath_Ext. split.
  - pose proof (Ext_loop_skip "" name (String.length name) Hdot Hsep) as Hskip.
    rewrite string_app_nil_l in Hskip. cbn [String.length Nat.add] in Hskip.
    by rewrite Hskip.
  - replace (dir +:+ String "/" name) with ((dir +:+ "/") +:+ name)
      by (by rewrite string_app_assoc).
    rewrite (string_length_app (dir +:+ "/") name).
    rewrite Ext_loop_skip by done.
    rewrite string_length_app. cbn [String.length].
    replace (String.length dir + 1)%nat with (S (String.length dir)) by lia.
    cbn [Ext_loop]. rewrite string_app_assoc.
    pose proof (get_app_r dir (String "/" name) 0) as Hget.
    rewrite Nat.add_0_r in Hget. change ("/" +:+ name) with (String "/" name).
    rewrite Hget. reflexivity.
Qed.

(** ** Claims about the file filter *)

Lemma lookup_true_list (entries : list (string * bool)) (key : string) :
  Forall (fun entry => entry.2 = true) entries ->
  default false ((list_to_map entries : gmap string bool) !! key) = true
  <-> key ∈ entries.*1.
Proof.
  induction 1 as [|[k v] entries Hv Hrest IH]; cbn [list_to_map foldr fmap list_fmap].
  - rewrite lookup_empty. cbn. split; [done |]. intros H. by apply not_elem_of_nil in H.
  - cbn in Hv. subst v. rewrite elem_of_cons. cbn [fst].
    destruct (decide (k = key)) as [->|Hne].
    + rewrite lookup_insert_eq. cbn. split; [by left | done].
    + rewrite lookup_insert_ne by done. rewrite IH. split; [by right |].
      intros [Heq | Hin]; [by subst | done].
Qed.

Section FileFilter.
Context {runtime : GoRuntime}.

(** C7 (file filter): [isCodeFile path] is true exactly when the lowercase
    form of the extension of [path] is one of the ten allowed extensions;
    ["Main.GO"] passes, ["notes.txt"] and ["README"] do not. *)
Theorem isCodeFile_correct :
  (∀ path : string,
     isCodeFile path = true
     <-> strings_ToLower (filepath_Ext path) ∈ allowed_extensions)
  ∧ isCodeFile "Main.GO" = true
  ∧ isCodeFile "notes.txt" = false
  ∧ isCodeFile "README" = false.
Proof.
  split; [| by vm_compute].
  intros path. unfold isCodeFile, codeExtensions.
  rewrite lookup_true_list; [done |]. repeat constructor.
Qed.
End FileFilter.

(** ** Claims about the content hasher *)

Example sha256_constants :
  length SHA256.K = 64%nat
  ∧ SHA256.K !! 0%nat = Some 0x428a2f98
  ∧ SHA256.K !! 63%nat = Some 0xc67178f2
  ∧ SHA256.ra SHA256.init = 0x6a09e667
  ∧ SHA256.rh SHA256.init = 0x5be0cd19.
Proof. repeat split. Qed.

Example sha256_abc :
  hex_EncodeToString (SHA256.Sum (bytes_of "abc"))
  = "ba7816bf8f01cfea414140de5dae2223b00361a396177a9cb410ff61f20015ad".
Proof. vm_compute. reflexivity. Qed.

Example sha256_empty :
  hex_EncodeToString (SHA256.Sum (bytes_of ""))
  = "e3b0c44298fc1c149afbf4c8996fb92427ae41e4649b934ca495991b7852b855".
Proof. vm_compute. reflexivity. Qed.

Example sha256_two_blocks :
  hex_EncodeToString (SHA256.Sum
    (bytes_of "abcdbcdecdefdefgefghfghighijhijkijkljklmklmnlmnomnopnopq"))
  = "248d6a61d20638b8e5c026930c3e6039a33ce45964ff2167f6ecedd419db06c1".
Proof. vm_compute. reflexivity. Qed.

(** Decoding the two characters written for a byte gives the byte back, and
    both characters are taken from [hextable]. *)
Lemma hex_byte_roundtrip (v : ascii) :
  ascii_of_N (Z.to_N (16 * hex_digit_value (hextable_at (Z.shiftr (byte_val v) 4))
                      + hex_digit_value (hextable_at (Z.land (byte_val v) 15)))) = v
  ∧ bool_decide (hextable_at (Z.shiftr (byte_val v) 4) ∈ bytes_of hextable) = true
  ∧ bool_decide (hextable_at (Z.land (byte_val v) 15) ∈ bytes_of hextable) = true.
Proof.
  destruct v as [[] [] [] [] [] [] [] []]; vm_compute; repeat split; reflexivity.
Qed.

Lemma hex_decode_encode (src : list ascii) : hex_decode (hex_EncodeToString src) = src.
Proof.
  induction src as [|v rest IH]; [done |].
  cbn [hex_EncodeToString hex_decode].
  destruct (hex_byte_roundtrip v) as (-> & _ & _). by rewrite IH.
Qed.

Lemma hex_EncodeToString_inj (a b : list ascii) :
  hex_EncodeToString a = hex_EncodeToString b -> a = b.
Proof.
  intros Heq. rewrite <- (hex_decode_encode a), <- (hex_decode_encode b).
  by rewrite Heq.
Qed.

Lemma hex_EncodeToString_length (src : list ascii) :
  String.length (hex_EncodeToString src) = (2 * length src)%nat.
Proof. induction src as [|v rest IH]; cbn [hex_EncodeToString String.length length]; lia. Qed.

Lemma hex_EncodeToString_lowercase (src : list ascii) :
  Forall (fun ch => ch ∈ bytes_of hextable) (bytes_of (hex_EncodeToString src)).
Proof.
  induction src as [|v rest IH]; [constructor |].
  cbn [hex_EncodeToString bytes_of String.list_ascii_of_string].
  destruct (hex_byte_roundtrip v) as (_ & Hhi & Hlo).
  apply bool_decide_eq_true in Hhi, Hlo.
  constructor; [done |]. constructor; [done | exact IH].
Qed.

Lemma sha256_Sum_length (data : list ascii) : length (SHA256.Sum data) = 32%nat.
Proof.
  unfold SHA256.Sum. rewrite length_map, !length_app.
  unfold SHA256.be_bytes. rewrite !length_map. reflexivity.
Qed.

Lemma bytes_of_app (a b : string) : bytes_of (a +:+ b) = bytes_of a ++ bytes_of b.
Proof.
  induction a as [|x a IH]; [done |].
  rewrite string_app_cons. cbn [bytes_of String.list_ascii_of_string app].
  f_equal. exact IH.
Qed.

Lemma bytes_of_inj (a b : string) : bytes_of a = bytes_of b -> a = b.
Proof.
  intros Heq. rewrite <- (String.string_of_list_ascii_of_string a),
    <- (String.string_of_list_ascii_of_string b).
  unfold bytes_of in Heq. by rewrite Heq.
Qed.

Lemma string_app_inv_tail (a b c : string) : a +:+ c = b +:+ c -> a = b.
Proof.
  intros Heq. apply bytes_of_inj. apply (f_equal bytes_of) in Heq.
  rewrite !bytes_of_app in Heq. by apply app_inv_tail in Heq.
Qed.

Lemma string_app_inv_head (a b c : string) : a +:+ b = a +:+ c -> b = c.
Proof.
  intros Heq. apply bytes_of_inj. apply (f_equal bytes_of) in Heq.
  rewrite !bytes_of_app in Heq. by apply app_inv_head in Heq.
Qed.

(** Two IDs are equal only when the hashed messages are equal or collide. *)
Lemma generateID_eq_inv (p1 c1 p2 c2 : string) :
  generateID p1 c1 = generateID p2 c2 ->
  p1 +:+ c1 = p2 +:+ c2 ∨ sha256_collision (p1 +:+ c1) (p2 +:+ c2).
Proof.
  unfold generateID, sha256_collision. intros Heq%hex_EncodeToString_inj.
  destruct (decide (p1 +:+ c1 = p2 +:+ c2)); [by left | by right].
Qed.

(** The path and the content are hashed with nothing between them, so the ID
    does not record where the path ends. *)
Remark generateID_boundary : generateID "ab" "c" = generateID "a" "bc".
Proof. reflexivity. Qed.

(** C3 (content-addressed ID): equal (path, content) give equal IDs; changing
    the path alone, or the content alone, changes the ID unless the two hashed
    messages collide under SHA-256; the ID is the lowercase hexadecimal
    encoding, 64 characters long, of the SHA-256 digest of the bytes of the
    path followed directly by the bytes of the content. *)
Theorem generateID_content_addressed (p1 p2 c1 c2 : string) :
  (p1 = p2 -> c1 = c2 -> generateID p1 c1 = generateID p2 c2)
  ∧ (p1 ≠ p2 -> ¬ sha256_collision (p1 +:+ c1) (p2 +:+ c1) ->
     generateID p1 c1 ≠ generateID p2 c1)
  ∧ (c1 ≠ c2 -> ¬ sha256_collision (p1 +:+ c1) (p1 +:+ c2) ->
     generateID p1 c1 ≠ generateID p1 c2)
  ∧ generateID p1 c1
    = hex_EncodeToString (SHA256.Sum (bytes_of p1 ++ bytes_of c1))
  ∧ String.length (generateID p1 c1) = 64%nat
  ∧ Forall (fun ch => ch ∈ bytes_of hextable) (bytes_of (generateID p1 c1)).
Proof.
  split; [| split; [| split; [| split; [| split]]]].
  - by intros -> ->.
  - intros Hp Hcoll Heq. apply generateID_eq_inv in Heq as [Heq | Hc]; [|done].
    by apply string_app_inv_tail in Heq.
  - intros Hc Hcoll Heq. apply generateID_eq_inv in Heq as [Heq | Hc']; [|done].
    by apply string_app_inv_head in Heq.
  - unfold generateID. by rewrite bytes_of_app.
  - unfold generateID. by rewrite hex_EncodeToString_length, sha256_Sum_length.
  - apply hex_EncodeToString_lowercase.
Qed.

Lemma generateID_content_addressed_witness :
  generateID "a.go" "x" ≠ generateID "b.go" "x"
  ∧ generateID "a.go" "x" ≠ generateID "a.go" "y".
Proof.
  destruct (generateID_content_addressed "a.go" "b.go" "x" "y") as (_ & Hp & Hc & _).
  split.
  - apply Hp; [by vm_compute |]. intros [_ Heq]. vm_compute in Heq. discriminate Heq.
  - apply Hc; [by vm_compute |]. intros [_ Heq]. vm_compute in Heq. discriminate Heq.
Defined.

(** ** Effects: stepping through [bind] and [wrap] *)

Section Effects.
Context {W : Type}.

Lemma bind_Ok {A B : Type} (c : M W A) (k : A -> M W B) (w w' : W) (a : A) :
  c w = (w', Ok a) -> bind c k w = k a w'.
Proof. unfold bind. by intros ->. Qed.

Lemma bind_Err {A B : Type} (c : M W A) (k : A -> M W B) (w w' : W) (e : string) :
  c w = (w', Err e) -> bind c k w = (w', Err e).
Proof. unfold bind. by intros ->. Qed.

Lemma bind_Ok_inv {A B : Type} (c : M W A) (k : A -> M W B) (w w' : W) (b : B) :
  bind c k w = (w', Ok b) -> ∃ a w1, c w = (w1, Ok a) ∧ k a w1 = (w', Ok b).
Proof.
  unfold bind. destruct (c w) as [w1 [a|e|]]; intros Heq; [by eauto | done | done].
Qed.

Lemma wrap_Ok {A : Type} (prefix : string) (c : M W A) (w w' : W) (a : A) :
  c w = (w', Ok a) -> wrap prefix c w = (w', Ok a).
Proof. unfold wrap. by intros ->. Qed.

Lemma wrap_Err {A : Type} (prefix : string) (c : M W A) (w w' : W) (e : string) :
  c w = (w', Err e) -> wrap prefix c w = (w', Err (prefix +:+ e)).
Proof. unfold wrap. by intros ->. Qed.

Lemma wrap_Ok_inv {A : Type} (prefix : string) (c : M W A) (w w' : W) (a : A) :
  wrap prefix c w = (w', Ok a) -> c w = (w', Ok a).
Proof. unfold wrap. destruct (c w) as [w1 [a'|e|]]; intros Heq; by simplify_eq. Qed.
End Effects.

(** ** Claims about the embedding client *)

Section EmbeddingClient.
Context {W : Type} {services : Services W}.

(** C6, as the code has it: when [GenerateEmbeddings] succeeds on a
    non-empty batch, the endpoint answered with status 200 and a body that
    decoded, and the result is the embeddings of the entries of that body in
    the order of the body, as many as the body has entries.  When the body is
    aligned with the request, the result is as long as the batch and its
    [i]-th element is the embedding of the entry numbered [i]. *)
Theorem GenerateEmbeddings_follows_response (g : EmbeddingGenerator)
    (texts : list string) (w w' : W) (embeddings : list (list float32)) :
  texts ≠ [] ->
  GenerateEmbeddings g texts w = (w', Ok embeddings) ->
  ∃ resp r,
    http_post_embeddings (apiKey g) {| Input := texts; RequestModel := model g |} w
      = (w', Ok resp)
    ∧ StatusCode resp = 200
    ∧ Body resp = inr r
    ∧ embeddings = map Embedding (Data r)
    ∧ length embeddings = length (Data r)
    ∧ (response_aligned texts r ->
         length embeddings = length texts
         ∧ ∀ i text, texts !! i = Some text ->
             ∃ d, Data r !! i = Some d ∧ Index d = Z.of_nat i
                  ∧ embeddings !! i = Some (Embedding d)).
Proof.
  intros Hne Hrun. unfold GenerateEmbeddings in Hrun.
  case_bool_decide as Hlen; [unfold fail in Hrun; done |].
  apply bind_Ok_inv in Hrun as (resp & w1 & Hpost & Hrest).
  apply wrap_Ok_inv in Hpost.
  case_bool_decide as Hcode; [done |].
  destruct (Body resp) as [e|r] eqn:Hbody; [done |].
  unfold ret in Hrest. simplify_eq.
  exists resp, r. split; [done |]. split; [lia |].
  split; [done |]. split; [done |]. split; [by rewrite length_map |].
  intros [Hsame Hindex]. split; [by rewrite length_map |].
  intros i text Htext.
  destruct (Data r !! i) as [d|] eqn:Hd.
  - exists d. split; [done |]. split; [by eapply Hindex |].
    change (map Embedding (Data r)) with (Embedding <$> Data r).
    by rewrite list_lookup_fmap, Hd.
  - apply lookup_ge_None in Hd. apply lookup_lt_Some in Htext. lia.
Qed.
End EmbeddingClient.

Example empty_reply_run :
  GenerateEmbeddings (NewEmbeddingGenerator "key") ["a"] empty_reply_world
  = ({| tw_files := ∅; tw_tree := []; tw_replies := [];
        tw_docs := []; tw_capacity := 10;
        tw_answer := {| ResultDocuments := []; ResultMetadatas := [] |};
        tw_reads := [] |}, Ok []).
Proof. vm_compute. reflexivity. Qed.

Example GenerateEmbeddings_no_texts :
  outcome (GenerateEmbeddings (NewEmbeddingGenerator "key") []) empty_reply_world
  = Err "no texts provided for embedding generation".
Proof. reflexivity. Qed.

Example format_int_404 : format_int 404 = "404".
Proof. reflexivity. Qed.

(** C6 as stated fails: on a batch of one text, [GenerateEmbeddings] succeeds
    with no embedding at all when the endpoint's body has no entry. *)
Lemma GenerateEmbeddings_length_counterexample :
  ¬ (∀ (texts : list string) (w w' : TestWorld) (embeddings : list (list float32)),
       texts ≠ [] ->
       GenerateEmbeddings (NewEmbeddingGenerator "key") texts w = (w', Ok embeddings) ->
       length embeddings = length texts).
Proof.
  intros Hclaim.
  assert (length ([] : list (list float32)) = length ["a"]) as Hbad.
  { eapply (Hclaim ["a"] empty_reply_world); [done | apply empty_reply_run]. }
  discriminate Hbad.
Qed.

(** ** Claims about [Search] *)

Lemma insert_after_prefix {A : Type} (front : list A) (x y : A) (back : list A) :
  <[length front := x]> (front ++ y :: back) = front ++ x :: back.
Proof.
  rewrite insert_app_r_alt by lia. by rewrite Nat.sub_diag.
Qed.

(** The loop of [Search], started after [done] results have been written:
    with enough metadata left it fills every remaining slot, pairing
    documents and metadata position by position. *)
Lemma Search_loop_fills (docs : list string) :
  ∀ (done : list SearchResult) (mdone mrest : list Metadata),
    length mdone = length done ->
    (length docs <= length mrest)%nat ->
    Search_loop (length done) docs (mdone ++ mrest)
      (done ++ replicate (length docs) zero_result)
    = Ok (done ++ zip_with pair_result docs mrest).
Proof.
  induction docs as [|doc docs IH]; intros done mdone mrest Hlen Hle.
  - reflexivity.
  - destruct mrest as [|m mrest]; [cbn in Hle; lia |].
    cbn [Search_loop length replicate zip_with].
    rewrite lookup_app_r by lia. replace (length done - length mdone)%nat with 0%nat by lia.
    cbn [lookup list_lookup].
    rewrite insert_after_prefix.
    specialize (IH (done ++ [pair_result doc m]) (mdone ++ [m]) mrest).
    rewrite !length_app, <- !app_assoc in IH. cbn [length app] in IH.
    replace (length done + 1)%nat with (S (length done)) in IH by lia.
    apply IH; [lia | cbn in Hle; lia].
Qed.

(** With too little metadata the loop reaches an index out of range. *)
Lemma Search_loop_panics (docs : list string) :
  ∀ (done : list SearchResult) (mdone mrest : list Metadata),
    length mdone = length done ->
    (length mrest < length docs)%nat ->
    Search_loop (length done) docs (mdone ++ mrest)
      (done ++ replicate (length docs) zero_result)
    = Panic.
Proof.
  induction docs as [|doc docs IH]; intros done mdone mrest Hlen Hlt.
  - cbn in Hlt. lia.
  - cbn [Search_loop length replicate].
    destruct mrest as [|m mrest].
    + rewrite app_nil_r. rewrite (lookup_ge_None_2 mdone) by lia. reflexivity.
    + rewrite lookup_app_r by lia. replace (length done - length mdone)%nat with 0%nat by lia.
      cbn [lookup list_lookup].
      rewrite insert_after_prefix.
      specialize (IH (done ++ [pair_result doc m]) (mdone ++ [m]) mrest).
      rewrite !length_app, <- !app_assoc in IH. cbn [length app] in IH.
      replace (length done + 1)%nat with (S (length done)) in IH by lia.
      apply IH; [lia | cbn in Hlt; lia].
Qed.

Section SearchService.
Context {W : Type} {services : Services W}.

Lemma Search_after_query (i : CodeIndexer) (query : string) (limit : Z) (w w' : W)
    (docs : list string) (metadata : list Metadata) :
  QuerySimilar (store i) query limit w = (w', Ok (docs, metadata)) ->
  Search i query limit w
  = (w', Search_loop 0 docs metadata (replicate (length docs) zero_result)).
Proof.
  intros Hq. unfold Search.
  by rewrite (bind_Ok _ _ w w' (docs, metadata)) by by apply wrap_Ok.
Qed.

(** C8 (search result mapping): when the store query succeeds with documents
    and metadata of the same length, [Search] succeeds with as many results
    as documents, in the store's order, the [idx]-th result pairing the
    [idx]-th document with the [idx]-th metadata. *)
Theorem Search_maps_results (i : CodeIndexer) (query : string) (limit : Z) (w w' : W)
    (docs : list string) (metadata : list Metadata) :
  QuerySimilar (store i) query limit w = (w', Ok (docs, metadata)) ->
  length docs = length metadata ->
  ∃ results,
    Search i query limit w = (w', Ok results)
    ∧ length results = length docs
    ∧ results = zip_with pair_result docs metadata
    ∧ ∀ idx doc m, docs !! idx = Some doc -> metadata !! idx = Some m ->
        results !! idx = Some {| Content := doc; SearchMetadata := m |}.
Proof.
  intros Hq Hlen. exists (zip_with pair_result docs metadata).
  split; [| split; [| split]].
  - rewrite (Search_after_query _ _ _ _ _ _ _ Hq). f_equal.
    apply (Search_loop_fills docs [] [] metadata); [done | lia].
  - rewrite length_zip_with. lia.
  - reflexivity.
  - intros idx doc m Hdoc Hm. rewrite lookup_zip_with, Hdoc. cbn. by rewrite Hm.
Qed.

(** C10 (indexing safety): after a successful store query, every access
    [metadata[idx]] of [Search] is in bounds when there are at least as many
    metadata entries as documents, and [Search] then returns its results;
    with fewer metadata entries than documents an access is out of bounds
    and [Search] panics. *)
Theorem Search_index_bounds (i : CodeIndexer) (query : string) (limit : Z) (w w' : W)
    (docs : list string) (metadata : list Metadata) :
  QuerySimilar (store i) query limit w = (w', Ok (docs, metadata)) ->
  ((length docs <= length metadata)%nat ->
     (∀ idx, (idx < length docs)%nat -> is_Some (metadata !! idx))
     ∧ ∃ results, Search i query limit w = (w', Ok results))
  ∧ ((length metadata < length docs)%nat ->
     metadata !! length metadata = None
     ∧ Search i query limit w = (w', Panic)).
Proof.
  intros Hq. rewrite (Search_after_query _ _ _ _ _ _ _ Hq). split.
  - intros Hle. split.
    + intros idx Hidx. apply lookup_lt_is_Some. lia.
    + eexists. f_equal. by apply (Search_loop_fills docs [] [] metadata).
  - intros Hlt. split.
    + by apply lookup_ge_None.
    + f_equal. by apply (Search_loop_panics docs [] [] metadata).
Qed.
End SearchService.

(** ** Claims about error propagation in the indexer *)

Section IndexerAbort.
Context {W : Type} {services : Services W} {runtime : GoRuntime}.

(** What the vector database holds, as far as the indexer can tell: a
    document stays once written, whatever the embeddings endpoint or a later
    write does, and a successful write holds its documents. *)
Variable persisted : W -> string -> Prop.
Hypothesis post_keeps : ∀ key req w w' out id,
  http_post_embeddings key req w = (w', out) -> persisted w id -> persisted w' id.
Hypothesis Add_keeps : ∀ cfg w w' out id,
  collection_Add cfg w = (w', out) -> persisted w id -> persisted w' id.
Hypothesis Add_persists : ∀ cfg w w' id,
  collection_Add cfg w = (w', Ok ()) ->
  length (Ids cfg) = length (Documents cfg) ->
  id ∈ Ids cfg -> persisted w' id.

Lemma wrap_keeps {A : Type} (prefix : string) (c : M W A) (id : string) :
  (∀ w w' out, c w = (w', out) -> persisted w id -> persisted w' id) ->
  ∀ w w' out, wrap prefix c w = (w', out) -> persisted w id -> persisted w' id.
Proof.
  intros Hc w w' out. unfold wrap. destruct (c w) as [w1 [a|e|]] eqn:Hrun;
    intros Heq Hp; simplify_eq; by eapply Hc.
Qed.

Lemma GenerateEmbeddings_keeps g texts w w' out id :
  GenerateEmbeddings g texts w = (w', out) -> persisted w id -> persisted w' id.
Proof.
  unfold GenerateEmbeddings. case_bool_decide; [unfold fail; by intros [= <- _] |].
  unfold bind.
  destruct (wrap _ _ w) as [w1 [resp|e|]] eqn:Hpost; intros Hrun Hp.
  - assert (persisted w1 id) as Hp1.
    { eapply wrap_keeps; [| exact Hpost | exact Hp]. intros; by eapply post_keeps. }
    case_bool_decide; [unfold fail in Hrun; by simplify_eq |].
    destruct (Body resp); unfold fail, ret in Hrun; by simplify_eq.
  - simplify_eq. eapply wrap_keeps; [| exact Hpost | exact Hp].
    intros; by eapply post_keeps.
  - simplify_eq. eapply wrap_keeps; [| exact Hpost | exact Hp].
    intros; by eapply post_keeps.
Qed.

Lemma AddDocuments_keeps s documents metadata ids w w' out id :
  AddDocuments s documents metadata ids w = (w', out) ->
  persisted w id -> persisted w' id.
Proof.
  unfold AddDocuments, bind.
  destruct (wrap _ (GenerateEmbeddings _ _) w) as [w1 r] eqn:Hgen. intros Hrun Hp.
  assert (persisted w1 id) as Hp1.
  { eapply wrap_keeps; [| exact Hgen | exact Hp].
    intros; by eapply GenerateEmbeddings_keeps. }
  destruct r as [embeddings|e|]; [| by simplify_eq | by simplify_eq].
  eapply wrap_keeps; [| exact Hrun | exact Hp1]. intros; by eapply Add_keeps.
Qed.

Lemma AddDocuments_persists s documents metadata ids w w' id :
  AddDocuments s documents metadata ids w = (w', Ok ()) ->
  length ids = length documents ->
  id ∈ ids -> persisted w' id.
Proof.
  unfold AddDocuments. intros Hrun Hlen Hin.
  apply bind_Ok_inv in Hrun as (embeddings & w1 & _ & Hadd).
  apply wrap_Ok_inv in Hadd. by eapply Add_persists.
Qed.

Lemma add_chunk_keeps i path total idx chunk w w' out id :
  add_chunk i path total idx chunk w = (w', out) -> persisted w id -> persisted w' id.
Proof.
  unfold add_chunk. apply wrap_keeps. intros; by eapply AddDocuments_keeps.
Qed.

Lemma add_chunks_keeps i path total chunks :
  ∀ idx w w' out id,
    add_chunks i path total idx chunks w = (w', out) ->
    persisted w id -> persisted w' id.
Proof.
  induction chunks as [|chunk chunks IH]; intros idx w w' out id; cbn [add_chunks].
  - unfold ret. by intros [= <- _].
  - unfold bind. destruct (add_chunk i path total idx chunk w) as [w1 r] eqn:Hone.
    intros Hrun Hp. pose proof (add_chunk_keeps _ _ _ _ _ _ _ _ _ Hone Hp) as Hp1.
    destruct r as [[]|e|]; [by eapply IH | by simplify_eq | by simplify_eq].
Qed.

(** Every chunk of a run of successful writes is held by the database. *)
Lemma add_chunks_persists i path total chunks :
  ∀ idx w w' chunk,
    add_chunks i path total idx chunks w = (w', Ok ()) ->
    chunk ∈ chunks -> persisted w' (generateID path chunk).
Proof.
  induction chunks as [|first chunks IH]; intros idx w w' chunk Hrun Hin.
  - by apply not_elem_of_nil in Hin.
  - cbn [add_chunks] in Hrun.
    apply bind_Ok_inv in Hrun as ([] & w1 & Hone & Hrest).
    apply elem_of_cons in Hin as [-> | Hin]; [| by eapply IH].
    eapply add_chunks_keeps; [exact Hrest |].
    unfold add_chunk in Hone. apply wrap_Ok_inv in Hone.
    eapply AddDocuments_persists; [exact Hone | done | apply list_elem_of_here].
Qed.

(** The loop of [ProcessFile] stops at the first chunk whose write fails. *)
Lemma add_chunks_abort i path total done :
  ∀ idx chunk rest w1 w2 w3 e,
    add_chunks i path total idx done w1 = (w2, Ok ()) ->
    add_chunk i path total (idx + length done) chunk w2 = (w3, Err e) ->
    add_chunks i path total idx (done ++ chunk :: rest) w1 = (w3, Err e).
Proof.
  induction done as [|first done IH]; intros idx chunk rest w1 w2 w3 e Hdone Hfail.
  - cbn in Hdone. unfold ret in Hdone. simplify_eq.
    cbn [app add_chunks length] in *. rewrite Nat.add_0_r in Hfail.
    by rewrite (bind_Err _ _ _ _ _ Hfail).
  - cbn [app add_chunks] in *.
    apply bind_Ok_inv in Hdone as ([] & wa & Hone & Hrest).
    rewrite (bind_Ok _ _ _ _ _ Hone).
    eapply IH; [exact Hrest |]. cbn [length] in Hfail.
    by replace (S idx + length done)%nat with (idx + S (length done))%nat by lia.
Qed.

(** The walk stops at the first entry whose callback fails. *)
Lemma WalkDir_abort (fn : WalkEntry -> M W ()) before :
  ∀ entry after w0 w1 w2 err,
    WalkDir before fn w0 = (w1, Ok ()) ->
    fn entry w1 = (w2, Err err) ->
    WalkDir (before ++ entry :: after) fn w0 = (w2, Err err).
Proof.
  induction before as [|first before IH]; intros entry after w0 w1 w2 err Hbefore Hfail.
  - cbn in Hbefore. unfold ret in Hbefore. simplify_eq.
    cbn [app WalkDir]. by rewrite (bind_Err _ _ _ _ _ Hfail).
  - cbn [app WalkDir] in *.
    apply bind_Ok_inv in Hbefore as ([] & wa & Hone & Hrest).
    rewrite (bind_Ok _ _ _ _ _ Hone). by eapply IH.
Qed.

(** C5 (first error aborts, nothing is rolled back).  [ProcessFile]: when
    the writes of the first chunks succeed and the write of the next chunk
    fails, [ProcessFile] returns that error, wrapped, in the state the
    failed write left; the chunks written before it are still held by the
    database.  [IndexDirectory]: when the callback fails on an entry after
    succeeding on those before it, [IndexDirectory] returns that error in
    the state that callback left, whatever entries come after: none of them
    is visited. *)
Theorem first_error_aborts (i : CodeIndexer) :
  (∀ path w0 w1 content done chunk rest w2 w3 e,
     os_ReadFile path w0 = (w1, Ok content) ->
     splitIntoChunks content 1000 = done ++ chunk :: rest ->
     add_chunks i path (length (done ++ chunk :: rest)) 0 done w1 = (w2, Ok ()) ->
     AddDocuments (store i) [chunk]
       [chunk_metadata path (length done) (length (done ++ chunk :: rest))]
       [generateID path chunk] w2 = (w3, Err e) ->
     ProcessFile i path w0
       = (w3, Err ("failed to add chunk to vector store: " +:+ e))
     ∧ ∀ written, written ∈ done -> persisted w3 (generateID path written))
  ∧ (∀ w0 before entry after w1 w2 err,
       walk_entries (rootPath i) w0 = before ++ entry :: after ->
       WalkDir before (index_entry i) w0 = (w1, Ok ()) ->
       index_entry i entry w1 = (w2, Err err) ->
       IndexDirectory i w0 = (w2, Err err)
       ∧ ∀ after', WalkDir (before ++ entry :: after') (index_entry i) w0
                   = (w2, Err err)).
Proof.
  split.
  - intros path w0 w1 content done chunk rest w2 w3 e Hread Hsplit Hdone Hfail.
    assert (add_chunk i path (length (done ++ chunk :: rest)) (0 + length done) chunk w2
            = (w3, Err ("failed to add chunk to vector store: " +:+ e))) as Hchunk.
    { unfold add_chunk. by apply wrap_Err. }
    split.
    + unfold ProcessFile.
      rewrite (bind_Ok _ _ w0 w1 content) by by apply wrap_Ok.
      cbv zeta. rewrite Hsplit. by eapply add_chunks_abort.
    + intros written Hin. eapply add_chunk_keeps; [exact Hchunk |].
      by eapply add_chunks_persists.
  - intros w0 before entry after w1 w2 err Hwalk Hbefore Hfail. split.
    + unfold IndexDirectory. rewrite Hwalk. by eapply WalkDir_abort.
    + intros after'. by eapply WalkDir_abort.
Qed.
End IndexerAbort.

(** ** The claims on the test double *)

Lemma tw_post_keeps key req w w' out id :
  tw_post key req w = (w', out) -> tw_persisted w id -> tw_persisted w' id.
Proof.
  unfold tw_post, tw_persisted. destruct (tw_replies w); intros [= <- _]; done.
Qed.

Lemma tw_Add_keeps cfg w w' out id :
  tw_Add cfg w = (w', out) -> tw_persisted w id -> tw_persisted w' id.
Proof.
  unfold tw_Add, tw_persisted. case_bool_decide; intros [= <- _]; [|done].
  cbn. rewrite map_app, elem_of_app. by left.
Qed.

Lemma stored_docs_ids ids :
  ∀ documents metadatas embeddings,
    length ids = length documents ->
    map doc_id (stored_docs ids documents metadatas embeddings) = ids.
Proof.
  induction ids as [|id ids IH]; intros [|text documents] metadatas embeddings Hlen;
    cbn in *; try done.
  f_equal. apply IH. lia.
Qed.

Lemma tw_Add_persists cfg w w' id :
  tw_Add cfg w = (w', Ok ()) ->
  length (Ids cfg) = length (Documents cfg) ->
  id ∈ Ids cfg -> tw_persisted w' id.
Proof.
  unfold tw_Add, tw_persisted. case_bool_decide; intros [= <-] Hlen Hin.
  cbn. rewrite map_app, elem_of_app, stored_docs_ids by done. by right.
Qed.

Example long_file_chunks : splitIntoChunks long_file 1000 = [long_chunk; short_chunk].
Proof. vm_compute. reflexivity. Qed.

Lemma first_error_aborts_witness :
  let failure :=
    "failed to add chunk to vector store: failed to add documents to ChromaDB: collection is full" in
  let final := state_after (ProcessFile test_indexer "main.go") full_store_world in
  ProcessFile test_indexer "main.go" full_store_world = (final, Err failure)
  ∧ tw_persisted final (generateID "main.go" long_chunk)
  ∧ IndexDirectory test_indexer full_store_world = (final, Err failure)
  ∧ tw_reads final = ["main.go"].
Proof.
  intros failure final.
  destruct (first_error_aborts (services := test_services) tw_persisted tw_post_keeps tw_Add_keeps tw_Add_persists
              test_indexer) as [Hfile Hwalk].
  pose (w1 := state_after (os_ReadFile "main.go") full_store_world).
  pose (w2 := state_after (add_chunks test_indexer "main.go" 2 0 [long_chunk]) w1).
  destruct (Hfile "main.go" full_store_world w1 long_file [long_chunk] short_chunk [] w2 final
              "failed to add documents to ChromaDB: collection is full")
    as [Hrun Hheld]; [vm_compute; reflexivity .. |].
  destruct (Hwalk full_store_world
              [ {| walk_path := "."; walk_IsDir := true; walk_err := None |} ]
              {| walk_path := "main.go"; walk_IsDir := false; walk_err := None |}
              [ {| walk_path := "notes.txt"; walk_IsDir := false; walk_err := None |};
                {| walk_path := "util.go"; walk_IsDir := false; walk_err := None |} ]
              full_store_world final failure)
    as [Hdir _]; [vm_compute; reflexivity .. |].
  split; [exact Hrun |]. split; [apply Hheld, list_elem_of_here |].
  split; [exact Hdir |]. vm_compute. reflexivity.
Defined.

Lemma GenerateEmbeddings_follows_response_witness :
  let g := NewEmbeddingGenerator "key" in
  let w' := state_after (GenerateEmbeddings g ["find errors"]) query_world in
  ∃ resp r,
    tw_post "key" {| Input := ["find errors"]; RequestModel := model g |} query_world
      = (w', Ok resp)
    ∧ Body resp = inr r
    ∧ [[5; 6]] = map Embedding (Data r)
    ∧ length (Data r) = 1%nat.
Proof.
  intros g w'.
  assert (["find errors"] ≠ ([] : list string)) as Hne by discriminate.
  assert (GenerateEmbeddings g ["find errors"] query_world = (w', Ok [[5; 6]])) as Hrun
    by (vm_compute; reflexivity).
  destruct (GenerateEmbeddings_follows_response g ["find errors"] query_world w' [[5; 6]]
              Hne Hrun) as (resp & r & Hpost & _ & Hbody & Hemb & Hlen & _).
  exists resp, r. split; [exact Hpost |]. split; [exact Hbody |].
  split; [exact Hemb |]. symmetry. exact Hlen.
Defined.

Lemma Search_maps_results_witness :
  let w' := state_after (Search test_indexer "find errors" 5) query_world in
  Search test_indexer "find errors" 5 query_world
  = (w', Ok [ pair_result "func a()" (sample_metadata "a.go");
              pair_result "func b()" (sample_metadata "b.go") ]).
Proof.
  intros w'.
  assert (QuerySimilar (store test_indexer) "find errors" 5 query_world
          = (w', Ok (["func a()"; "func b()"],
                     [sample_metadata "a.go"; sample_metadata "b.go"]))) as Hq
    by (vm_compute; reflexivity).
  destruct (Search_maps_results test_indexer "find errors" 5 query_world w' _ _ Hq eq_refl)
    as (results & Hrun & _ & -> & _).
  exact Hrun.
Defined.

Lemma Search_index_bounds_witness :
  (∃ results, outcome (Search test_indexer "find errors" 5) query_world = Ok results)
  ∧ outcome (Search test_indexer "find errors" 5) short_metadata_world = Panic.
Proof.
  split.
  - pose (w' := state_after (Search test_indexer "find errors" 5) query_world).
    assert (QuerySimilar (store test_indexer) "find errors" 5 query_world
            = (w', Ok (["func a()"; "func b()"],
                       [sample_metadata "a.go"; sample_metadata "b.go"]))) as Hq
      by (vm_compute; reflexivity).
    destruct (Search_index_bounds test_indexer "find errors" 5 query_world w' _ _ Hq)
      as [Hin _].
    destruct Hin as [_ [results Hrun]]; [cbn; lia |].
    exists results. unfold outcome. by rewrite Hrun.
  - pose (w' := state_after (Search test_indexer "find errors" 5) short_metadata_world).
    assert (QuerySimilar (store test_indexer) "find errors" 5 short_metadata_world
            = (w', Ok (["func a()"; "func b()"], [sample_metadata "a.go"]))) as Hq
      by (vm_compute; reflexivity).
    destruct (Search_index_bounds test_indexer "find errors" 5 short_metadata_world w' _ _ Hq)
      as [_ Hout].
    destruct Hout as [_ Hrun]; [cbn; lia |].
    unfold outcome. by rewrite Hrun.
Defined.

(* ===================================================================== *)
(** * Further properties of the package *)
(* ===================================================================== *)

(** ** More about the chunker *)

Lemma length_concat_nonempty {A : Type} (gs : list (list A)) :
  Forall (fun g => g ≠ []) gs -> (length gs <= length (concat gs))%nat.
Proof.
  induction 1 as [|g gs Hg Hgs IH]; cbn [concat length]; [lia |].
  rewrite length_app. destruct g; [done | cbn [length]; lia].
Qed.

(** [splitIntoChunks] never returns an empty slice, and it returns at most one
    chunk per line of the text. *)
Theorem splitIntoChunks_count (text : string) (chunkSize : Z) :
  (1 <= length (splitIntoChunks text chunkSize)
   <= length (strings_Split text newline_char))%nat.
Proof.
  rewrite splitIntoChunks_groups, length_map.
  pose proof (group_lines_concat chunkSize (strings_Split text newline_char)) as Hcat.
  pose proof (group_lines_ok chunkSize (strings_Split text newline_char)) as Hok.
  pose proof (Split_nonempty text newline_char) as Hne.
  split.
  - destruct (group_lines chunkSize (strings_Split text newline_char)); [| cbn; lia].
    cbn in Hcat. congruence.
  - rewrite <- Hcat at 2. apply length_concat_nonempty.
    eapply Forall_impl; [exact Hok |]. by intros g [Hg _].
Qed.

Lemma group_loop_fits (chunkSize : Z) (lines : list string) :
  ∀ closed cur,
    accumulated_size cur + accumulated_size lines <= chunkSize ->
    fold_left (group_step chunkSize) lines (closed, cur) = (closed, cur ++ lines).
Proof.
  induction lines as [|line lines IH]; intros closed cur Hfit.
  - by rewrite app_nil_r.
  - cbn [fold_left accumulated_size] in *. unfold group_step at 2.
    pose proof (accumulated_size_nonneg lines).
    destruct (Z.gtb_spec (accumulated_size cur + (len line + 1)) chunkSize) as [Hgt|Hle];
      [lia |].
    cbn [andb]. rewrite IH.
    + by rewrite <- app_assoc.
    + rewrite accumulated_size_app, accumulated_size_single. lia.
Qed.

(** A text that fits the target with its final newline is one chunk: the text
    followed by a newline. *)
Theorem splitIntoChunks_fits (text : string) (chunkSize : Z) :
  len text + 1 <= chunkSize ->
  splitIntoChunks text chunkSize = [text +:+ newline].
Proof.
  intros Hfit. rewrite splitIntoChunks_groups. unfold group_lines.
  assert (accumulated_size (strings_Split text newline_char) = len text + 1) as Htotal.
  { by rewrite <- len_render, render_Split, len_app, len_newline. }
  rewrite group_loop_fits by (cbn [accumulated_size]; lia).
  unfold group_finish. cbn [fst snd app].
  pose proof (Split_nonempty text newline_char) as Hne.
  destruct (strings_Split text newline_char) as [|line lines] eqn:Hsplit; [done |].
  cbn [map app]. by rewrite <- Hsplit, render_Split.
Qed.

Lemma splitIntoChunks_fits_witness :
  splitIntoChunks sample_text 9 = [sample_text +:+ newline].
Proof. apply splitIntoChunks_fits. vm_compute. discriminate. Defined.

Lemma group_loop_tiny (chunkSize : Z) (lines : list string) :
  chunkSize <= 1 ->
  ∀ closed cur, cur ≠ [] ->
    group_finish (fold_left (group_step chunkSize) lines (closed, cur))
    = closed ++ [cur] ++ map (fun line => [line]) lines.
Proof.
  intros Htiny. induction lines as [|line lines IH]; intros closed cur Hcur.
  - unfold group_finish. cbn [fold_left fst snd map]. by destruct cur.
  - cbn [fold_left]. unfold group_step at 2.
    pose proof (accumulated_size_pos cur Hcur). pose proof (len_nonneg line).
    destruct (Z.gtb_spec (accumulated_size cur + (len line + 1)) chunkSize) as [Hgt|Hle];
      [| lia].
    destruct (Z.gtb_spec (accumulated_size cur) 0) as [Hpos|Hzero]; [| lia].
    cbn [andb]. rewrite IH by done. cbn [map app]. by rewrite <- app_assoc.
Qed.

(** With a target of one or less (zero and negative targets included), every
    line of the text becomes a chunk of its own. *)
Theorem splitIntoChunks_tiny_target (text : string) (chunkSize : Z) :
  chunkSize <= 1 ->
  splitIntoChunks text chunkSize
  = map (fun line => line +:+ newline) (strings_Split text newline_char).
Proof.
  intros Htiny. rewrite splitIntoChunks_groups. unfold group_lines.
  pose proof (Split_nonempty text newline_char) as Hne.
  destruct (strings_Split text newline_char) as [|line lines]; [done |].
  cbn [fold_left]. unfold group_step at 2. cbn [accumulated_size].
  replace (0 >? 0) with false by reflexivity. rewrite andb_false_r.
  rewrite group_loop_tiny by done. cbn [app map].
  rewrite render_single. f_equal.
  rewrite map_map. apply map_ext. intros l. apply render_single.
Qed.

Lemma splitIntoChunks_tiny_target_witness :
  splitIntoChunks sample_text 0 = [String "a" newline; "longer" +:+ newline].
Proof.
  rewrite (splitIntoChunks_tiny_target sample_text 0); [reflexivity | lia].
Defined.
(** *** Chunk boundaries are greedy *)

Lemma greedy_extend_last (chunkSize : Z) (gs : list (list string)) :
  ∀ g more, g ≠ [] ->
    greedy chunkSize (gs ++ [g]) -> greedy chunkSize (gs ++ [g ++ more]).
Proof.
  induction gs as [|g0 gs IH]; intros g more Hg Hgreedy; [done |].
  destruct gs as [|g1 gs].
  - cbn in *. destruct Hgreedy as [(line & rest & -> & Hover) _].
    split; [| done]. by exists line, (rest ++ more).
  - change ((g0 :: g1 :: gs) ++ [g]) with (g0 :: g1 :: (gs ++ [g])) in Hgreedy.
    change ((g0 :: g1 :: gs) ++ [g ++ more]) with (g0 :: g1 :: (gs ++ [g ++ more])).
    cbn [greedy] in *. destruct Hgreedy as [Hfirst Hrest].
    split; [done |]. apply (IH g more Hg). exact Hrest.
Qed.

Lemma greedy_snoc (chunkSize : Z) (gs : list (list string)) :
  ∀ g next,
    greedy chunkSize (gs ++ [g]) -> overflows chunkSize g next ->
    greedy chunkSize ((gs ++ [g]) ++ [next]).
Proof.
  induction gs as [|g0 gs IH]; intros g next Hgreedy Hover.
  - cbn. done.
  - destruct gs as [|g1 gs].
    + cbn in *. destruct Hgreedy as [Hfirst _]. done.
    + change (((g0 :: g1 :: gs) ++ [g]) ++ [next])
        with (g0 :: g1 :: ((gs ++ [g]) ++ [next])).
      change ((g0 :: g1 :: gs) ++ [g]) with (g0 :: g1 :: (gs ++ [g])) in Hgreedy.
      cbn [greedy] in *. destruct Hgreedy as [Hfirst Hrest].
      split; [done |]. by apply (IH g next).
Qed.

Lemma group_loop_greedy (chunkSize : Z) (lines : list string) :
  ∀ closed cur, cur ≠ [] ->
    greedy chunkSize (closed ++ [cur]) ->
    greedy chunkSize (group_finish (fold_left (group_step chunkSize) lines (closed, cur))).
Proof.
  induction lines as [|line lines IH]; intros closed cur Hcur Hgreedy.
  - unfold group_finish. cbn [fold_left fst snd]. by destruct cur.
  - cbn [fold_left]. unfold group_step at 2.
    destruct (Z.gtb_spec (accumulated_size cur + (len line + 1)) chunkSize) as [Hgt|Hle];
      destruct (Z.gtb_spec (accumulated_size cur) 0) as [Hpos|Hzero]; cbn [andb].
    + apply IH; [done |]. apply greedy_snoc; [done |]. by exists line, [].
    + apply IH; [by destruct cur |]. by apply greedy_extend_last.
    + apply IH; [by destruct cur |]. by apply greedy_extend_last.
    + apply IH; [by destruct cur |]. by apply greedy_extend_last.
Qed.

Lemma group_lines_greedy (chunkSize : Z) (lines : list string) :
  greedy chunkSize (group_lines chunkSize lines).
Proof.
  unfold group_lines. destruct lines as [|line lines]; [done |].
  cbn [fold_left]. unfold group_step at 2. cbn [accumulated_size].
  replace (0 >? 0) with false by reflexivity. rewrite andb_false_r.
  apply group_loop_greedy; [done | exact I].
Qed.

Lemma greedy_lookup (chunkSize : Z) (gs : list (list string)) :
  greedy chunkSize gs ->
  ∀ i g next, gs !! i = Some g -> gs !! S i = Some next -> overflows chunkSize g next.
Proof.
  induction gs as [|g0 gs IH]; intros Hgreedy i g next Hg Hnext; [done |].
  destruct gs as [|g1 gs]; [by destruct i |].
  cbn [greedy] in Hgreedy. destruct Hgreedy as [Hfirst Hrest].
  destruct i as [|i].
  - cbn in Hg, Hnext. by simplify_eq.
  - cbn [lookup list_lookup] in Hg, Hnext. by eapply (IH Hrest i).
Qed.

(** A chunk is closed only where the next line would not fit: for two
    consecutive chunks, the length of the first plus the size of the first
    line of the second exceeds the target. *)
Theorem splitIntoChunks_greedy (text : string) (chunkSize : Z) (i : nat)
    (chunk next : string) :
  splitIntoChunks text chunkSize !! i = Some chunk ->
  splitIntoChunks text chunkSize !! S i = Some next ->
  ∃ line rest,
    chunk_lines next = line :: rest
    ∧ chunkSize < len chunk + (len line + 1).
Proof.
  rewrite splitIntoChunks_groups.
  change (map render ?l) with (render <$> l). rewrite !list_lookup_fmap.
  intros Hchunk Hnext.
  destruct (group_lines chunkSize (strings_Split text newline_char) !! i)
    as [g|] eqn:Hg; [| done].
  destruct (group_lines chunkSize (strings_Split text newline_char) !! S i)
    as [g'|] eqn:Hg'; [| done].
  cbn in Hchunk, Hnext. simplify_eq.
  pose proof (group_lines_no_newline chunkSize _ (Split_lines_no_newline text)) as Hno.
  rewrite Forall_forall in Hno.
  rewrite chunk_lines_render by (apply Hno; by eapply list_elem_of_lookup_2).
  rewrite len_render.
  exact (greedy_lookup _ _ (group_lines_greedy chunkSize _) i g g' Hg Hg').
Qed.

Lemma splitIntoChunks_greedy_witness :
  ∃ line rest,
    chunk_lines ("longer" +:+ newline) = line :: rest
    ∧ 3 < len (String "a" newline) + (len line + 1).
Proof.
  apply (splitIntoChunks_greedy sample_text 3 0); reflexivity.
Defined.
(** ** More about the file filter *)

Lemma string_from_app_r (a b : string) (k : nat) :
  string_from (String.length a + k) (a +:+ b) = string_from k b.
Proof.
  induction a as [|x a IH]; [done |].
  rewrite string_app_cons. exact IH.
Qed.

(** Below a separator, the scan of [filepath.Ext] sees the last element only. *)
Lemma Ext_loop_last_element (front name : string) (k : nat) :
  "/"%char ∉ String.list_ascii_of_string name ->
  (k <= String.length name)%nat ->
  Ext_loop ((front +:+ "/") +:+ name) (String.length (front +:+ "/") + k)
  = Ext_loop name k.
Proof.
  intros Hsep. induction k as [|k IH]; intros Hk.
  - rewrite Nat.add_0_r, string_length_app. cbn [String.length].
    replace (String.length front + 1)%nat with (S (String.length front)) by lia.
    cbn [Ext_loop]. rewrite string_app_assoc.
    pose proof (get_app_r front ("/" +:+ name) 0) as Hget.
    rewrite Nat.add_0_r in Hget. rewrite Hget. reflexivity.
  - replace (String.length (front +:+ "/") + S k)%nat
      with (S (String.length (front +:+ "/") + k)) by lia.
    cbn [Ext_loop]. rewrite get_app_r.
    destruct (get_in_range name k) as (c & -> & Hin); [lia |].
    unfold IsPathSeparator.
    rewrite bool_decide_eq_false_2 by (intros ->; by apply Hsep).
    rewrite string_from_app_r. rewrite IH by lia. reflexivity.
Qed.

Lemma filepath_Ext_last_element (dir name : string) :
  "/"%char ∉ String.list_ascii_of_string name ->
  filepath_Ext (dir +:+ String "/" name) = filepath_Ext name.
Proof.
  intros Hsep. unfold filepath_Ext.
  replace (dir +:+ String "/" name) with ((dir +:+ "/") +:+ name)
    by (by rewrite string_app_assoc).
  rewrite (string_length_app (dir +:+ "/") name).
  by apply Ext_loop_last_element.
Qed.

Section FileFilterMore.
Context {runtime : GoRuntime}.

(** Whether a file is eligible depends on its name only, not on the
    directories of its path, whatever dots their names hold. *)
Theorem isCodeFile_last_element (dir name : string) :
  "/"%char ∉ String.list_ascii_of_string name ->
  isCodeFile (dir +:+ String "/" name) = isCodeFile name.
Proof.
  intros Hsep. unfold isCodeFile. by rewrite filepath_Ext_last_element.
Qed.

(** A file whose name holds no dot is never eligible. *)
Theorem isCodeFile_no_extension (dir name : string) :
  "."%char ∉ String.list_ascii_of_string name ->
  "/"%char ∉ String.list_ascii_of_string name ->
  isCodeFile name = false ∧ isCodeFile (dir +:+ String "/" name) = false.
Proof.
  intros Hdot Hsep. unfold isCodeFile.
  destruct (filepath_Ext_no_dot dir name Hdot Hsep) as [-> ->]. done.
Qed.
End FileFilterMore.
(** *** Case of the extension *)

Lemma lower_byte_dot (c : ascii) : lower_byte c = "."%char -> c = "."%char.
Proof. destruct c as [[] [] [] [] [] [] [] []]; vm_compute; congruence. Qed.

Lemma lower_byte_ascii (c : ascii) :
  is_ascii_byte (lower_byte c) = true -> is_ascii_byte c = true.
Proof. destruct c as [[] [] [] [] [] [] [] []]; vm_compute; congruence. Qed.

Lemma has_byte_lower (b : ascii) (s : string) :
  lower_byte b = b ->
  has_byte b (map_bytes lower_byte s) = false -> has_byte b s = false.
Proof.
  intros Hb. induction s as [|c s IH]; [done |].
  cbn [map_bytes has_byte]. intros [Hc Hs]%orb_false_elim.
  rewrite (IH Hs), orb_false_r. apply bool_decide_eq_false_2. intros ->.
  rewrite Hb in Hc. by rewrite bool_decide_eq_true_2 in Hc.
Qed.

Lemma all_ascii_lower (s : string) :
  all_ascii (map_bytes lower_byte s) = true -> all_ascii s = true.
Proof.
  induction s as [|c s IH]; [done |].
  cbn [map_bytes all_ascii]. intros [Hc Hs]%andb_prop.
  by rewrite (lower_byte_ascii c Hc), (IH Hs).
Qed.

Lemma has_byte_false (b : ascii) (s : string) :
  has_byte b s = false -> b ∉ String.list_ascii_of_string s.
Proof.
  induction s as [|c s IH]; cbn [has_byte String.list_ascii_of_string].
  - intros _. apply not_elem_of_nil.
  - intros [Hc Hs]%orb_false_elim. apply bool_decide_eq_false_1 in Hc.
    rewrite not_elem_of_cons. split; [congruence | by apply IH].
Qed.

Lemma plain_extension_lower (ext : string) :
  plain_extension (map_bytes lower_byte ext) = true -> plain_extension ext = true.
Proof.
  destruct ext as [|c rest]; [done |]. cbn [map_bytes plain_extension].
  intros [[[Hc Hdot]%andb_prop Hsep]%andb_prop Hascii]%andb_prop.
  apply bool_decide_eq_true_1, lower_byte_dot in Hc. subst c.
  apply negb_true_iff in Hdot, Hsep.
  rewrite (has_byte_lower "." rest eq_refl Hdot), (has_byte_lower "/" rest eq_refl Hsep).
  by rewrite (all_ascii_lower rest Hascii).
Qed.

Lemma ToLower_scan_ascii (s : string) :
  all_ascii s = true ->
  ∀ seen, ToLower_scan s seen = (true, seen || has_upper s).
Proof.
  induction s as [|c s IH]; intros Hascii seen; cbn [ToLower_scan has_upper].
  - by rewrite orb_false_r.
  - cbn [all_ascii] in Hascii. apply andb_prop in Hascii as [-> Hs].
    by rewrite (IH Hs), orb_assoc.
Qed.

Lemma map_lower_no_upper (s : string) :
  has_upper s = false -> map_bytes lower_byte s = s.
Proof.
  induction s as [|c s IH]; [done |]. cbn [has_upper map_bytes].
  intros [Hc Hs]%orb_false_elim. unfold lower_byte at 1. by rewrite Hc, (IH Hs).
Qed.

Section FileFilterCase.
Context {runtime : GoRuntime}.

(** On a string of ASCII bytes, [strings.ToLower] lowers every byte. *)
Lemma strings_ToLower_ascii (s : string) :
  all_ascii s = true -> strings_ToLower s = map_bytes lower_byte s.
Proof.
  intros Hascii. unfold strings_ToLower. rewrite (ToLower_scan_ascii s Hascii).
  cbn [orb]. destruct (has_upper s) eqn:Hupper; cbn [negb]; [done |].
  by rewrite map_lower_no_upper.
Qed.

(** The extension is compared without regard to case: a path ending in an
    allowed extension, written in any mix of upper and lower case, is
    eligible. *)
Theorem isCodeFile_case_insensitive (stem ext : string) :
  map_bytes lower_byte ext ∈ allowed_extensions ->
  isCodeFile (stem +:+ ext) = true.
Proof.
  intros Hin.
  assert (plain_extension (map_bytes lower_byte ext) = true) as Hplain.
  { assert (Forall (fun e => plain_extension e = true) allowed_extensions) as Hall
      by (repeat constructor).
    rewrite Forall_forall in Hall. by apply Hall. }
  apply plain_extension_lower in Hplain.
  destruct ext as [|c suffix]; [done |]. cbn [plain_extension] in Hplain.
  apply andb_prop in Hplain as [[[Hc Hdot]%andb_prop Hsep]%andb_prop Hascii].
  apply bool_decide_eq_true_1 in Hc. subst c.
  apply negb_true_iff, has_byte_false in Hdot, Hsep.
  unfold isCodeFile. rewrite (filepath_Ext_dot stem suffix Hdot Hsep).
  rewrite strings_ToLower_ascii by (cbn [all_ascii]; by rewrite Hascii).
  unfold codeExtensions. rewrite lookup_true_list; [exact Hin | repeat constructor].
Qed.
End FileFilterCase.

Lemma isCodeFile_case_insensitive_witness : isCodeFile "cmd/Main.Go" = true.
Proof.
  apply (isCodeFile_case_insensitive "cmd/Main" ".Go").
  apply (bool_decide_unpack _). vm_compute. exact I.
Defined.

Lemma isCodeFile_last_element_witness :
  isCodeFile "v1.2/pkg.go/README" = isCodeFile "README".
Proof.
  apply (isCodeFile_last_element "v1.2/pkg.go" "README").
  apply (bool_decide_unpack _). vm_compute. exact I.
Defined.

Lemma isCodeFile_no_extension_witness :
  isCodeFile "Makefile" = false ∧ isCodeFile "pkg.go/Makefile" = false.
Proof.
  apply (isCodeFile_no_extension "pkg.go" "Makefile");
    apply (bool_decide_unpack _); vm_compute; exact I.
Defined.
(** ** More about the content hasher *)

(** The ID depends on the path and the content through their concatenation
    only: unless SHA-256 collides on the two concatenations, two IDs are equal
    exactly when the concatenations are. *)
Theorem generateID_eq_iff (p1 c1 p2 c2 : string) :
  ¬ sha256_collision (p1 +:+ c1) (p2 +:+ c2) ->
  generateID p1 c1 = generateID p2 c2 <-> p1 +:+ c1 = p2 +:+ c2.
Proof.
  intros Hno. split.
  - intros Heq. by destruct (generateID_eq_inv _ _ _ _ Heq).
  - unfold generateID. by intros ->.
Qed.

Lemma generateID_eq_iff_witness :
  generateID "pkg/a" ".go" = generateID "pkg/" "a.go".
Proof.
  apply (generateID_eq_iff "pkg/a" ".go" "pkg/" "a.go"); [| reflexivity].
  intros [Hne _]. apply Hne. reflexivity.
Defined.

(** ** More about the embedding client and the store *)

Section ClientMore.
Context {W : Type} {services : Services W}.

(** What [GenerateEmbeddings] returns on a decoded answer with status 200. *)
Lemma GenerateEmbeddings_from_response (g : EmbeddingGenerator) (texts : list string)
    (w w' : W) (resp : HttpResponse) (r : EmbeddingResponse) :
  texts ≠ [] ->
  http_post_embeddings (apiKey g) {| Input := texts; RequestModel := model g |} w
    = (w', Ok resp) ->
  StatusCode resp = 200 ->
  Body resp = inr r ->
  GenerateEmbeddings g texts w = (w', Ok (map Embedding (Data r))).
Proof.
  intros Hne Hpost Hcode Hbody. unfold GenerateEmbeddings.
  rewrite bool_decide_eq_false_2 by (by destruct texts).
  rewrite (bind_Ok _ _ w w' resp) by by apply wrap_Ok.
  rewrite bool_decide_eq_false_2 by lia. by rewrite Hbody.
Qed.

(** [GenerateEmbeddings] succeeds exactly when the batch is not empty, the
    request goes through, the status is 200 and the body decodes; it then
    returns the embeddings of the body's entries. *)
Theorem GenerateEmbeddings_success_iff (g : EmbeddingGenerator) (texts : list string)
    (w w' : W) (embeddings : list (list float32)) :
  GenerateEmbeddings g texts w = (w', Ok embeddings)
  <-> texts ≠ []
      ∧ ∃ resp r,
          http_post_embeddings (apiKey g) {| Input := texts; RequestModel := model g |} w
            = (w', Ok resp)
          ∧ StatusCode resp = 200
          ∧ Body resp = inr r
          ∧ embeddings = map Embedding (Data r).
Proof.
  split.
  - unfold GenerateEmbeddings.
    intros Hrun. case_bool_decide as Hlen; [unfold fail in Hrun; done |].
    split; [by destruct texts |].
    apply bind_Ok_inv in Hrun as (resp & w1 & Hpost & Hrest).
    apply wrap_Ok_inv in Hpost.
    case_bool_decide as Hcode; [done |].
    destruct (Body resp) as [e|r] eqn:Hbody; [done |].
    unfold ret in Hrest. simplify_eq. exists resp, r.
    split; [done |]. split; [lia |]. by split.
  - intros (Hne & resp & r & Hpost & Hcode & Hbody & ->).
    by apply (GenerateEmbeddings_from_response g texts w w' resp r).
Qed.

(** Adding no document is an error: nothing is requested from the endpoint
    and nothing is written, the state is unchanged. *)
Theorem AddDocuments_empty_batch (s : ChromaStore) (metadata : list Metadata)
    (ids : list string) (w : W) :
  AddDocuments s [] metadata ids w
  = (w, Err "failed to generate embeddings: no texts provided for embedding generation").
Proof. reflexivity. Qed.

(** When the endpoint answers the query with status 200 and a body without
    entries, [QuerySimilar] indexes an empty slice: it panics, and so does
    [Search]. *)
Theorem QuerySimilar_empty_response_panics (i : CodeIndexer) (query : string)
    (limit : Z) (w w' : W) (resp : HttpResponse) (r : EmbeddingResponse) :
  http_post_embeddings (apiKey (embedder (store i)))
    {| Input := [query]; RequestModel := model (embedder (store i)) |} w = (w', Ok resp) ->
  StatusCode resp = 200 ->
  Body resp = inr r ->
  Data r = [] ->
  QuerySimilar (store i) query limit w = (w', Panic)
  ∧ Search i query limit w = (w', Panic).
Proof.
  intros Hpost Hcode Hbody Hdata.
  assert (GenerateEmbeddings (embedder (store i)) [query] w = (w', Ok [])) as Hgen.
  { pose proof (GenerateEmbeddings_from_response (embedder (store i)) [query] w w' resp r)
      as Hgen.
    rewrite Hdata in Hgen. by apply Hgen. }
  assert (QuerySimilar (store i) query limit w = (w', Panic)) as Hq.
  { unfold QuerySimilar.
    by rewrite (bind_Ok _ _ w w' []) by by apply wrap_Ok. }
  split; [exact Hq |]. unfold Search, bind, wrap. by rewrite Hq.
Qed.

(** [QuerySimilar] queries the database with the first embedding of the
    endpoint's answer, the given limit, and documents and metadata included;
    further entries of the answer are not used. *)
Theorem QuerySimilar_uses_first_embedding (s : ChromaStore) (query : string)
    (limit : Z) (w w1 : W) (resp : HttpResponse) (r : EmbeddingResponse)
    (d : EmbeddingData) (others : list EmbeddingData) :
  http_post_embeddings (apiKey (embedder s))
    {| Input := [query]; RequestModel := model (embedder s) |} w = (w1, Ok resp) ->
  StatusCode resp = 200 ->
  Body resp = inr r ->
  Data r = d :: others ->
  QuerySimilar s query limit w
  = match collection_Query {| QueryEmbeddings := Embedding d; NResults := limit;
                              Include := ["documents"; "metadatas"] |} w1 with
    | (w2, Ok results) => (w2, Ok (ResultDocuments results, ResultMetadatas results))
    | (w2, Err e) => (w2, Err ("failed to query ChromaDB: " +:+ e))
    | (w2, Panic) => (w2, Panic)
    end.
Proof.
  intros Hpost Hcode Hbody Hdata.
  assert (GenerateEmbeddings (embedder s) [query] w
          = (w1, Ok (Embedding d :: map Embedding others))) as Hgen.
  { pose proof (GenerateEmbeddings_from_response (embedder s) [query] w w1 resp r) as Hgen.
    rewrite Hdata in Hgen. by apply Hgen. }
  unfold QuerySimilar.
  rewrite (bind_Ok _ _ w w1 (Embedding d :: map Embedding others)) by by apply wrap_Ok.
  cbn [lookup list_lookup]. unfold bind, wrap, ret.
  by destruct (collection_Query _ w1) as [w2 [results|e|]].
Qed.

(** An error returned by [Search] is an error of the store query, wrapped;
    the loop over the documents adds no error of its own. *)
Theorem Search_error_is_query_error (i : CodeIndexer) (query : string) (limit : Z)
    (w w' : W) (message : string) :
  Search i query limit w = (w', Err message) ->
  ∃ e, QuerySimilar (store i) query limit w = (w', Err e)
       ∧ message = "failed to query vector store: " +:+ e.
Proof.
  unfold Search, bind, wrap.
  destruct (QuerySimilar (store i) query limit w) as [w1 [[docs metadata]|e|]];
    intros Hrun.
  - exfalso. injection Hrun as _ Hloop. revert Hloop.
    generalize (replicate (length docs) zero_result). generalize 0%nat.
    induction docs as [|doc docs IH]; intros idx results; cbn [Search_loop]; [done |].
    destruct (metadata !! idx); [apply IH | done].
  - simplify_eq. by exists e.
  - done.
Qed.

(** Metadata entries beyond the number of documents are ignored. *)
Theorem Search_ignores_surplus_metadata (i : CodeIndexer) (query : string) (limit : Z)
    (w w' : W) (docs : list string) (metadata surplus : list Metadata) :
  QuerySimilar (store i) query limit w = (w', Ok (docs, metadata ++ surplus)) ->
  length docs = length metadata ->
  Search i query limit w = (w', Ok (zip_with pair_result docs metadata)).
Proof.
  intros Hq Hlen. rewrite (Search_after_query _ _ _ _ _ _ _ Hq). f_equal.
  etrans; [apply (Search_loop_fills docs [] [] (metadata ++ surplus));
           [done | rewrite length_app; lia] |].
  cbn [app]. f_equal. clear Hq. revert metadata Hlen.
  induction docs as [|doc docs IH]; intros [|m metadata] Hlen; cbn in *; try done.
  f_equal. apply IH. lia.
Qed.
End ClientMore.

Lemma QuerySimilar_empty_response_panics_witness :
  outcome (Search test_indexer "find errors" 5) empty_reply_world = Panic.
Proof.
  pose (w' := state_after (Search test_indexer "find errors" 5) empty_reply_world).
  destruct (QuerySimilar_empty_response_panics test_indexer "find errors" 5
              empty_reply_world w'
              {| StatusCode := 200;
                 Body := inr {| Data := []; Model := "text-embedding-ada-002";
                                PromptTokens := 1; TotalTokens := 1 |} |}
              {| Data := []; Model := "text-embedding-ada-002";
                 PromptTokens := 1; TotalTokens := 1 |})
    as [_ Hsearch]; [reflexivity .. |].
  unfold outcome. by rewrite Hsearch.
Defined.

Lemma QuerySimilar_uses_first_embedding_witness :
  outcome (QuerySimilar (store test_indexer) "find errors" 5) surplus_world
  = Ok (["func a()"], [sample_metadata "a.go"; sample_metadata "b.go"]).
Proof.
  unfold outcome.
  rewrite (QuerySimilar_uses_first_embedding (store test_indexer) "find errors" 5
             surplus_world
             (state_after (QuerySimilar (store test_indexer) "find errors" 5) surplus_world)
             {| StatusCode := 200;
                Body := inr {| Data := reply_data 0 [[5; 6]; [7; 8]];
                               Model := "text-embedding-ada-002";
                               PromptTokens := 1; TotalTokens := 1 |} |}
             {| Data := reply_data 0 [[5; 6]; [7; 8]]; Model := "text-embedding-ada-002";
                PromptTokens := 1; TotalTokens := 1 |}
             {| Embedding := [5; 6]; Index := 0; Object := "embedding" |}
             [ {| Embedding := [7; 8]; Index := 1; Object := "embedding" |} ]);
    reflexivity.
Defined.

Lemma Search_error_is_query_error_witness :
  ∃ e, QuerySimilar (store test_indexer) "find errors" 5 offline_world
       = (offline_world, Err e)
       ∧ "failed to query vector store: failed to generate query embedding: failed to make request: connection refused"
         = "failed to query vector store: " +:+ e.
Proof.
  apply (Search_error_is_query_error test_indexer "find errors" 5 offline_world).
  reflexivity.
Defined.

Lemma Search_ignores_surplus_metadata_witness :
  outcome (Search test_indexer "find errors" 5) surplus_world
  = Ok [pair_result "func a()" (sample_metadata "a.go")].
Proof.
  unfold outcome.
  rewrite (Search_ignores_surplus_metadata test_indexer "find errors" 5 surplus_world
             (state_after (Search test_indexer "find errors" 5) surplus_world)
             ["func a()"] [sample_metadata "a.go"] [sample_metadata "b.go"]);
    reflexivity.
Defined.
(** ** More about the indexer *)

Section Sequencing.
Context {W : Type}.

Lemma bind_ret_unit (c : M W ()) (w : W) : (c ;;; ret ()) w = c w.
Proof. unfold bind, ret. by destruct (c w) as [w' [[]|e|]]. Qed.

Lemma bind_ext {A B : Type} (c : M W A) (k k' : A -> M W B) (w : W) :
  (∀ a w', k a w' = k' a w') -> bind c k w = bind c k' w.
Proof. intros Hk. unfold bind. destruct (c w) as [w' [a|e|]]; by rewrite ?Hk. Qed.

Lemma bind_ret_l {A B : Type} (a : A) (k : A -> M W B) (w : W) :
  bind (ret a) k w = k a w.
Proof. reflexivity. Qed.
End Sequencing.

Section IndexerMore.
Context {W : Type} {services : Services W} {runtime : GoRuntime}.



(** An empty file is not skipped: [ProcessFile] writes one document for it,
    holding a single newline, numbered 0 of 1. *)
Theorem ProcessFile_empty_file (i : CodeIndexer) (path : string) (w w1 : W) :
  os_ReadFile path w = (w1, Ok "") ->
  ProcessFile i path w
  = wrap "failed to add chunk to vector store: "
      (AddDocuments (store i) [newline] [chunk_metadata path 0 1]
         [generateID path newline]) w1.
Proof.
  intros Hread. unfold ProcessFile.
  rewrite (bind_Ok _ _ w w1 "") by by apply wrap_Ok.
  cbv zeta. assert (splitIntoChunks "" 1000 = [newline]) as -> by reflexivity.
  cbn [add_chunks length]. apply bind_ret_unit.
Qed.

(** The walk of a tree without walk errors processes exactly the eligible
    files (regular files with an allowed extension), in the order of the
    walk. *)
Lemma WalkDir_eligible (i : CodeIndexer) (entries : list WalkEntry) :
  Forall (fun entry => walk_err entry = None) entries ->
  ∀ w, WalkDir entries (index_entry i) w = process_files i (eligible_paths entries) w.
Proof.
  induction 1 as [|entry entries Hentry Hrest IH]; intros w; [done |].
  cbn [WalkDir]. unfold eligible_paths. cbn [List.filter].
  unfold index_entry at 1, eligible at 1. rewrite Hentry.
  destruct (walk_IsDir entry || negb (isCodeFile (walk_path entry))); cbn [negb].
  - rewrite bind_ret_l. apply IH.
  - cbn [map process_files]. apply bind_ext. intros _ w'. apply IH.
Qed.

Theorem IndexDirectory_processes_eligible (i : CodeIndexer) (w : W) :
  Forall (fun entry => walk_err entry = None) (walk_entries (rootPath i) w) ->
  IndexDirectory i w
  = process_files i (eligible_paths (walk_entries (rootPath i) w)) w.
Proof. intros Hwalk. unfold IndexDirectory. by apply WalkDir_eligible. Qed.

End IndexerMore.

Section IndexerSuccess.
Context {W : Type} {services : Services W} {runtime : GoRuntime}.
Variable persisted : W -> string -> Prop.
Hypothesis post_keeps : ∀ key req w w' out id,
  http_post_embeddings key req w = (w', out) -> persisted w id -> persisted w' id.
Hypothesis Add_keeps : ∀ cfg w w' out id,
  collection_Add cfg w = (w', out) -> persisted w id -> persisted w' id.
Hypothesis Add_persists : ∀ cfg w w' id,
  collection_Add cfg w = (w', Ok ()) ->
  length (Ids cfg) = length (Documents cfg) ->
  id ∈ Ids cfg -> persisted w' id.

(** When [ProcessFile] returns nil, the file was read and every chunk of its
    content is held by the database under its ID (for a database that keeps
    what it has written). *)
Theorem ProcessFile_success_persists (i : CodeIndexer) (path : string) (w w' : W) :
  ProcessFile i path w = (w', Ok ()) ->
  ∃ content w1,
    os_ReadFile path w = (w1, Ok content)
    ∧ ∀ chunk, chunk ∈ splitIntoChunks content 1000 ->
        persisted w' (generateID path chunk).
Proof.
  unfold ProcessFile. intros Hrun.
  apply bind_Ok_inv in Hrun as (content & w1 & Hread & Hadd).
  apply wrap_Ok_inv in Hread. exists content, w1. split; [done |].
  intros chunk Hin.
  by eapply (add_chunks_persists persisted post_keeps Add_keeps Add_persists).
Qed.
End IndexerSuccess.


Lemma ProcessFile_empty_file_witness :
  outcome (ProcessFile test_indexer "empty.go") offline_world
  = Err "failed to add chunk to vector store: failed to generate embeddings: failed to make request: connection refused".
Proof.
  unfold outcome.
  rewrite (ProcessFile_empty_file test_indexer "empty.go" offline_world
             (state_after (os_ReadFile "empty.go") offline_world)); reflexivity.
Defined.

Lemma IndexDirectory_processes_eligible_witness :
  IndexDirectory test_indexer roomy_world
  = process_files test_indexer ["main.go"; "util.go"] roomy_world.
Proof.
  assert (eligible_paths (walk_entries (rootPath test_indexer) roomy_world)
          = ["main.go"; "util.go"]) as Hpaths by (vm_compute; reflexivity).
  rewrite <- Hpaths.
  apply (IndexDirectory_processes_eligible test_indexer roomy_world).
  repeat constructor.
Defined.


Lemma ProcessFile_success_persists_witness :
  tw_persisted (state_after (ProcessFile test_indexer "main.go") roomy_world)
    (generateID "main.go" short_chunk).
Proof.
  destruct (ProcessFile_success_persists (services := test_services) tw_persisted
              tw_post_keeps tw_Add_keeps tw_Add_persists test_indexer "main.go" roomy_world
              (state_after (ProcessFile test_indexer "main.go") roomy_world))
    as (content & w1 & Hread & Hheld); [vm_compute; reflexivity |].
  assert (os_ReadFile "main.go" roomy_world
          = (state_after (os_ReadFile "main.go") roomy_world, Ok long_file)) as Hknown
    by (vm_compute; reflexivity).
  rewrite Hknown in Hread. injection Hread as _ <-. apply Hheld.
  rewrite long_file_chunks. apply list_elem_of_further, list_elem_of_here.
Defined.
(** ** Opening the store *)

Section OpeningStore.
Context {W : Type} {client : ChromaClient W}.

(** Every way [NewChromaStore] can end.  When it succeeds, the store carries
    the given collection name and embedder, and the collection was created or,
    failing that, found.  When it fails, either the client could not be made,
    or creating and looking up the collection both failed; the message then
    carries the error of the lookup, never that of the creation. *)
Theorem NewChromaStore_outcomes (persistDir name : string) (e : EmbeddingGenerator)
    (w w' : W) (out : result ChromaStore) :
  NewChromaStore persistDir name e w = (w', out) ->
  match out with
  | Ok s =>
      s = {| collectionName := name; embedder := e |}
      ∧ ∃ w1, chroma_NewClient (filepath_Clean persistDir) w = (w1, Ok ())
          ∧ (client_CreateCollection name collection_description w1 = (w', Ok ())
             ∨ ∃ w2 createError,
                 client_CreateCollection name collection_description w1
                   = (w2, Err createError)
                 ∧ client_GetCollection name w2 = (w', Ok ()))
  | Err message =>
      (∃ clientError,
         chroma_NewClient (filepath_Clean persistDir) w = (w', Err clientError)
         ∧ message = "failed to create ChromaDB client: " +:+ clientError)
      ∨ (∃ w1 w2 createError getError,
           chroma_NewClient (filepath_Clean persistDir) w = (w1, Ok ())
           ∧ client_CreateCollection name collection_description w1
             = (w2, Err createError)
           ∧ client_GetCollection name w2 = (w', Err getError)
           ∧ message = "failed to create/get collection: " +:+ getError)
  | Panic => True
  end.
Proof.
  unfold NewChromaStore, bind, wrap, ret.
  destruct (chroma_NewClient (filepath_Clean persistDir) w) as [w1 [[]|clientError|]]
    eqn:Hclient.
  - destruct (client_CreateCollection name collection_description w1)
      as [w2 [[]|createError|]] eqn:Hcreate.
    + intros [= <- <-]. split; [done |]. exists w1. split; [done | by left].
    + destruct (client_GetCollection name w2) as [w3 [[]|getError|]] eqn:Hget;
        intros [= <- <-]; [| | done].
      * split; [done |]. exists w1. split; [done |]. right. by exists w2, createError.
      * right. by exists w1, w2, createError, getError.
    + by intros [= <- <-].
  - intros [= <- <-]. left. by exists clientError.
  - by intros [= <- <-].
Qed.
End OpeningStore.

Lemma NewChromaStore_outcomes_witness :
  (∃ w2 createError,
     names_Create "code-snippets" collection_description (Some ["code-snippets"])
       = (w2, Err createError)
     ∧ names_Get "code-snippets" w2 = (Some ["code-snippets"], Ok ()))
  ∧ ((∃ clientError,
        names_NewClient "/tmp/keploy-chromadb" None = (None, Err clientError)
        ∧ "failed to create ChromaDB client: cannot open database"
          = "failed to create ChromaDB client: " +:+ clientError)
     ∨ (∃ w1 w2 createError getError,
          names_NewClient "/tmp/keploy-chromadb" None = (w1, Ok ())
          ∧ names_Create "code-snippets" collection_description w1 = (w2, Err createError)
          ∧ names_Get "code-snippets" w2 = (None, Err getError)
          ∧ "failed to create ChromaDB client: cannot open database"
            = "failed to create/get collection: " +:+ getError)).
Proof.
  assert (NewChromaStore "/tmp/keploy-chromadb" "code-snippets"
            (NewEmbeddingGenerator "key") (Some ["code-snippets"])
          = (Some ["code-snippets"],
             Ok {| collectionName := "code-snippets";
                   embedder := NewEmbeddingGenerator "key" |})) as Hexisting
    by (vm_compute; reflexivity).
  assert (NewChromaStore "/tmp/keploy-chromadb" "code-snippets"
            (NewEmbeddingGenerator "key") None
          = (None, Err "failed to create ChromaDB client: cannot open database"))
    as Hclosed by (vm_compute; reflexivity).
  split.
  - destruct (NewChromaStore_outcomes _ _ _ _ _ _ Hexisting)
      as (_ & w1 & Hclient & [Hcreated | Hfound]).
    + exfalso. injection Hclient as <-. vm_compute in Hcreated. discriminate Hcreated.
    + injection Hclient as <-. exact Hfound.
  - exact (NewChromaStore_outcomes _ _ _ _ _ _ Hclosed).
Defined.

(** ** What a successful run leaves behind *)

Section SearchSuccess.
Context {W : Type} {services : Services W}.

(** [Search] succeeds only when the store query succeeded with at least as
    many metadata entries as documents; its results are then the documents
    paired with their metadata, in the store's order. *)
Theorem Search_success_inv (i : CodeIndexer) (query : string) (limit : Z) (w w' : W)
    (results : list SearchResult) :
  Search i query limit w = (w', Ok results) ->
  ∃ docs metadata,
    QuerySimilar (store i) query limit w = (w', Ok (docs, metadata))
    ∧ (length docs <= length metadata)%nat
    ∧ results = zip_with pair_result docs metadata.
Proof.
  unfold Search, bind, wrap.
  destruct (QuerySimilar (store i) query limit w) as [w1 [[docs metadata]|e|]];
    intros Hrun; [| done | done].
  injection Hrun as -> Hloop. exists docs, metadata. split; [done |].
  destruct (decide (length docs <= length metadata)%nat) as [Hle|Hgt].
  - split; [done |].
    pose proof (Search_loop_fills docs [] [] metadata eq_refl Hle) as Hfill.
    cbn [length app] in Hfill. rewrite Hfill in Hloop. by injection Hloop as <-.
  - exfalso.
    pose proof (Search_loop_panics docs [] [] metadata eq_refl ltac:(lia)) as Hpanic.
    cbn [length app] in Hpanic. rewrite Hpanic in Hloop. discriminate Hloop.
Qed.
End SearchSuccess.

Lemma Search_success_inv_witness :
  ∃ docs metadata,
    QuerySimilar (store test_indexer) "find errors" 5 query_world
      = (state_after (Search test_indexer "find errors" 5) query_world, Ok (docs, metadata))
    ∧ (length docs <= length metadata)%nat
    ∧ [ pair_result "func a()" (sample_metadata "a.go");
        pair_result "func b()" (sample_metadata "b.go") ]
      = zip_with pair_result docs metadata.
Proof.
  apply (Search_success_inv test_indexer "find errors" 5 query_world).
  vm_compute. reflexivity.
Defined.

Section DirectorySuccess.
Context {W : Type} {services : Services W} {runtime : GoRuntime}.
Variable persisted : W -> string -> Prop.
Hypothesis Read_keeps : ∀ path w w' out id,
  os_ReadFile path w = (w', out) -> persisted w id -> persisted w' id.
Hypothesis post_keeps : ∀ key req w w' out id,
  http_post_embeddings key req w = (w', out) -> persisted w id -> persisted w' id.
Hypothesis Add_keeps : ∀ cfg w w' out id,
  collection_Add cfg w = (w', out) -> persisted w id -> persisted w' id.
Hypothesis Add_persists : ∀ cfg w w' id,
  collection_Add cfg w = (w', Ok ()) ->
  length (Ids cfg) = length (Documents cfg) ->
  id ∈ Ids cfg -> persisted w' id.




End DirectorySuccess.


